(** * use-async-task: the invocation controller behind [useAsyncTask]

    A shallow embedding of [src/index.ts].  The hook keeps three cells that
    outlive a render:

    - [invocationRef] ([useRef(0)]), the generation counter;
    - [callbacksRef]  ([useRef({ onStart, onComplete, onError, onFinally })]);
    - [status]        ([useState({ isRunning, result, error })]).

    [run] and [cancel] mutate these cells; the [then]/[catch] continuations
    that [run] attaches to the task's promise run later, when the event loop
    delivers the settlement.  The embedding threads a [State] holding the three
    cells, the continuations still attached to a promise, and the sequence of
    externally visible effects (calls of the task function, [setStatus] calls,
    callback calls, [console.error] calls).

    Conventions.  JavaScript numbers are exact on the integers a counter
    started at 0 can reach by [++] in any feasible run; the counter is a [nat].
    Errors are [Error] objects, as the source's annotations say.  Callbacks
    are opaque function values: calling one is recorded, it returns normally
    and does not call back into the controller. *)

From Stdlib Require Import List String Bool Arith PeanoNat Lia Sorted.
Import ListNotations.

Set Implicit Arguments.

(** ** Values *)

(** [Error]: the three properties the source reads ([console.error] prints
    [error.name], [error.message], [error.stack]). *)
Record Error : Type := mkError {
  name : string;
  message : string;
  stack : string
}.

(** [export type Falsy = false | 0 | "" | null | void | undefined] *)
Inductive Falsy : Type :=
| FalsyFalse
| FalsyZero
| FalsyEmptyString
| FalsyNull
| FalsyUndefined.

(** Result of evaluating a JavaScript expression: a value or a thrown error. *)
Inductive Completion (A : Type) : Type :=
| Normal (a : A)
| Throw (e : Error).

Arguments Normal {A} a.
Arguments Throw {A} e.

(** [!!x] for an optional boolean option ([runOnMount?: boolean],
    [leaveRunning?: boolean]). *)
Definition toBoolean (x : option bool) : bool :=
  match x with
  | Some b => b
  | None => false
  end.

Section UseAsyncTask.

(** [Value]: what a task's promise resolves to; [Arg]: an argument of [run];
    [Handler]: a function value given as a callback; [UserPromise]: a promise
    made by the task function. *)
Context {Value Arg Handler UserPromise : Type}.

(** The stack string the engine attaches to [new Error(...)] inside [run]. *)
Variable engine_stack : string.

(** [new Error(message)] *)
Definition new_Error (msg : string) : Error :=
  {| name := "Error"; message := msg; stack := engine_stack |}.

(** What [func.apply(thisArg, args)] may return: [Promise<any> | Falsy].
    A promise is an object, hence truthy; [!promiseMaybe] holds exactly of
    the [IsFalsy] values. *)
Inductive PromiseMaybe : Type :=
| IsPromise (p : UserPromise)
| IsFalsy (f : Falsy).

(** The local [promise] of [run]: the task's own promise, or
    [new Promise((_, reject) => reject(error))]. *)
Inductive Promise : Type :=
| Returned (p : UserPromise)
| NewRejected (e : Error).

(** How a promise settles. *)
Inductive Settlement : Type :=
| Fulfilled (v : Value)
| Rejected (e : Error).

(** The object held by [useState]. *)
Record Status : Type := mkStatus {
  isRunning : bool;
  result : option Value;
  error : option Error
}.

(** The object held by [callbacksRef]. *)
Record Callbacks : Type := mkCallbacks {
  onStart : option Handler;
  onComplete : option Handler;
  onError : option Handler;
  onFinally : option Handler
}.

(** Externally visible effects, in the order they happen. *)
Inductive Event : Type :=
| EvFunc (invocation : nat) (args : list Arg)
| EvSetStatus (s : Status)
| EvOnStart (h : Handler)
| EvOnComplete (h : Handler) (v : Value)
| EvOnError (h : Handler) (e : Error)
| EvOnFinally (h : Handler)
| EvConsoleError (e_name e_message e_stack : string).

(** The pair of continuations [.then(...).catch(...)] attached to [promise]
    by one execution of [run]; they close over [invocation] and
    [leaveRunning]. *)
Record Reaction : Type := mkReaction {
  r_promise : Promise;
  r_invocation : nat;
  r_leaveRunning : option bool
}.

Record State : Type := mkState {
  invocationRef : nat;
  callbacksRef : Callbacks;
  status : Status;
  reactions : list Reaction;
  trace : list Event
}.

(** [thisArg = { invocation, isCanceled }]; [isCanceled] reads
    [invocationRef.current] when it is called. *)
Record TaskFunctionThis : Type := mkThis {
  invocation : nat;
  isCanceled : State -> bool
}.

Definition TaskFunction : Type :=
  TaskFunctionThis -> list Arg -> Completion PromiseMaybe.

(** The hook's argument. *)
Record Props : Type := mkProps {
  func : TaskFunction;
  runOnMount : option bool;
  leaveRunning : option bool;
  callbacks : Callbacks
}.

(** ** Computations: state and exceptions *)

Definition M (A : Type) : Type := State -> Completion A * State.

Definition ret {A} (a : A) : M A := fun st => (Normal a, st).

Definition bind {A B} (m : M A) (k : A -> M B) : M B :=
  fun st =>
    match m st with
    | (Normal a, st') => k a st'
    | (Throw e, st') => (Throw e, st')
    end.

Definition throw {A} (e : Error) : M A := fun st => (Throw e, st).

(** [try { body } catch (error) { handler }] *)
Definition try_catch {A} (body : M A) (handler : Error -> M A) : M A :=
  fun st =>
    match body st with
    | (Normal a, st') => (Normal a, st')
    | (Throw e, st') => handler e st'
    end.

Notation "x <- m ;; k" := (bind m (fun x => k))
  (at level 61, m at next level, right associativity).
Notation "m ;; k" := (bind m (fun _ => k))
  (at level 61, right associativity).

Definition emit (ev : Event) : M unit :=
  fun st =>
    (Normal tt,
     {| invocationRef := invocationRef st;
        callbacksRef := callbacksRef st;
        status := status st;
        reactions := reactions st;
        trace := trace st ++ [ev] |}).

(** [invocationRef.current++] *)
Definition incr_invocationRef : M unit :=
  fun st =>
    (Normal tt,
     {| invocationRef := S (invocationRef st);
        callbacksRef := callbacksRef st;
        status := status st;
        reactions := reactions st;
        trace := trace st |}).

(** [invocationRef.current] *)
Definition read_invocationRef : M nat :=
  fun st => (Normal (invocationRef st), st).

(** [callbacksRef.current] *)
Definition read_callbacksRef : M Callbacks :=
  fun st => (Normal (callbacksRef st), st).

Definition write_callbacksRef (c : Callbacks) : M unit :=
  fun st =>
    (Normal tt,
     {| invocationRef := invocationRef st;
        callbacksRef := c;
        status := status st;
        reactions := reactions st;
        trace := trace st |}).

(** [setStatus(s)] *)
Definition setStatus (s : Status) : M unit :=
  fun st =>
    (Normal tt,
     {| invocationRef := invocationRef st;
        callbacksRef := callbacksRef st;
        status := s;
        reactions := reactions st;
        trace := trace st ++ [EvSetStatus s] |}).

(** [h?.(...)]: call [h] when it is defined. *)
Definition call_opt (h : option Handler) (ev : Handler -> Event) : M unit :=
  match h with
  | Some f => emit (ev f)
  | None => ret tt
  end.

(** [console.error("Async task error:", error.name, error.message,
    error.stack)] *)
Definition console_error (e : Error) : M unit :=
  emit (EvConsoleError (name e) (message e) (stack e)).

(** [func.apply(thisArg, args)] *)
Definition apply_func (f : TaskFunction) (thisArg : TaskFunctionThis)
    (args : list Arg) : M PromiseMaybe :=
  fun st =>
    (f thisArg args,
     {| invocationRef := invocationRef st;
        callbacksRef := callbacksRef st;
        status := status st;
        reactions := reactions st;
        trace := trace st ++ [EvFunc (invocation thisArg) args] |}).

(** [promise.then(...).catch(...)]: the continuations wait for [promise]. *)
Definition attach (r : Reaction) : M unit :=
  fun st =>
    (Normal tt,
     {| invocationRef := invocationRef st;
        callbacksRef := callbacksRef st;
        status := status st;
        reactions := reactions st ++ [r];
        trace := trace st |}).

(** ** The hook's functions *)

(** [{ invocation, isCanceled: () => invocationRef.current > invocation }] *)
Definition make_thisArg (inv : nat) : TaskFunctionThis :=
  {| invocation := inv;
     isCanceled := fun st => inv <? invocationRef st |}.

(** The [.then] continuation of [run]. *)
Definition onFulfilled (inv : nat) (leave : option bool) (res : Value)
    : M unit :=
  current <- read_invocationRef ;;
  if inv <? current then ret tt
  else
    setStatus {| isRunning := toBoolean leave;
                 result := Some res;
                 error := None |} ;;
    cbs <- read_callbacksRef ;;
    call_opt (onComplete cbs) (fun h => EvOnComplete h res) ;;
    cbs' <- read_callbacksRef ;;
    call_opt (onFinally cbs') EvOnFinally.

(** The [.catch] continuation of [run]. *)
Definition onRejected (inv : nat) (err : Error) : M unit :=
  console_error err ;;
  current <- read_invocationRef ;;
  if inv <? current then ret tt
  else
    setStatus {| isRunning := false; result := None; error := Some err |} ;;
    cbs <- read_callbacksRef ;;
    call_opt (onError cbs) (fun h => EvOnError h err) ;;
    cbs' <- read_callbacksRef ;;
    call_opt (onFinally cbs') EvOnFinally.

(** [function run(...args)], as closed over [func] and [leaveRunning] by
    the render that created it. *)
Definition run (f : TaskFunction) (leave : option bool) (args : list Arg)
    : M unit :=
  incr_invocationRef ;;
  inv <- read_invocationRef ;;
  let thisArg := make_thisArg inv in
  promise <-
    try_catch
      (promiseMaybe <- apply_func f thisArg args ;;
       match promiseMaybe with
       | IsFalsy _ => throw (new_Error "Task function did not return a Promise!")
       | IsPromise p => ret (Returned p)
       end)
      (fun err => ret (NewRejected err)) ;;
  setStatus {| isRunning := true; result := None; error := None |} ;;
  cbs <- read_callbacksRef ;;
  call_opt (onStart cbs) EvOnStart ;;
  attach {| r_promise := promise;
            r_invocation := inv;
            r_leaveRunning := leave |}.

(** [function cancel()] *)
Definition cancel : M unit :=
  incr_invocationRef ;;
  setStatus {| isRunning := false; result := None; error := None |}.

(** The cells after the first render's [useState] and [useRef] calls. *)
Definition useAsyncTask_init (props : Props) : State :=
  {| invocationRef := 0;
     callbacksRef := callbacks props;
     status := {| isRunning := toBoolean (runOnMount props);
                  result := None;
                  error := None |};
     reactions := [];
     trace := [] |}.

(** The effect without dependencies: refresh [callbacksRef.current]. *)
Definition effect_callbacks (props : Props) : M unit :=
  write_callbacksRef (callbacks props).

(** [useEffect(() => { if (runOnMount) (run as any)(); }, [])] *)
Definition effect_runOnMount (props : Props) : M unit :=
  if toBoolean (runOnMount props)
  then run (func props) (leaveRunning props) []
  else ret tt.

(** ** The event loop *)

(** First continuation waiting under generation [inv], and the others. *)
Fixpoint take_reaction (inv : nat) (l : list Reaction)
    : option (Reaction * list Reaction) :=
  match l with
  | [] => None
  | r :: l' =>
      if r_invocation r =? inv then Some (r, l')
      else
        match take_reaction inv l' with
        | Some (r', rest) => Some (r', r :: rest)
        | None => None
        end
  end.

(** A promise made rejected settles that way; a task's promise settles as
    its environment decides. *)
Definition outcome (p : Promise) (env : Settlement) : Settlement :=
  match p with
  | Returned _ => env
  | NewRejected e => Rejected e
  end.

(** [promise.then(A).catch(B)]: [B] also receives what [A] throws. *)
Definition deliver (r : Reaction) (env : Settlement) : M unit :=
  match outcome (r_promise r) env with
  | Fulfilled v =>
      try_catch (onFulfilled (r_invocation r) (r_leaveRunning r) v)
                (onRejected (r_invocation r))
  | Rejected e => onRejected (r_invocation r) e
  end.

(** The promise of generation [inv] settles and its continuations run. *)
Definition settle (inv : nat) (env : Settlement) : M unit :=
  fun st =>
    match take_reaction inv (reactions st) with
    | None => (Normal tt, st)
    | Some (r, rest) =>
        deliver r env
          {| invocationRef := invocationRef st;
             callbacksRef := callbacksRef st;
             status := status st;
             reactions := rest;
             trace := trace st |}
    end.

(** What can happen to a hook: the effects that follow its first render
    with props [p] ([Mount]) or a later one ([Render]), a call of the [run]
    closure made by a render with props [p], a call of [cancel], the cleanup
    at unmount, and the event loop delivering the settlement of the promise of
    generation [inv]. *)
Inductive Op : Type :=
| Mount (p : Props)
| Render (p : Props)
| Run (p : Props) (args : list Arg)
| Cancel
| Unmount
| Settle (inv : nat) (env : Settlement).

Definition perform (op : Op) : M unit :=
  match op with
  | Mount p => effect_callbacks p ;; effect_runOnMount p
  | Render p => effect_callbacks p
  | Run p args => run (func p) (leaveRunning p) args
  | Cancel => cancel
  | Unmount => cancel
  | Settle inv env => settle inv env
  end.

Definition step (op : Op) (st : State) : State := snd (perform op st).

Definition exec (ops : list Op) (st : State) : State :=
  fold_left (fun s op => step op s) ops st.

End UseAsyncTask.

(** * Vocabulary *)

Arguments IsPromise {UserPromise} p.
Arguments IsFalsy {UserPromise} f.
Arguments Returned {UserPromise} p.
Arguments NewRejected {UserPromise} e.
Arguments Cancel {Value Arg Handler UserPromise}.
Arguments Unmount {Value Arg Handler UserPromise}.

(** The three statuses the source writes as literals. *)
Definition status_idle {Value : Type} : Status (Value := Value) :=
  {| isRunning := false; result := None; error := None |}.

Definition status_running {Value : Type} : Status (Value := Value) :=
  {| isRunning := true; result := None; error := None |}.

Definition status_failed {Value : Type} (e : Error) : Status (Value := Value) :=
  {| isRunning := false; result := None; error := Some e |}.

(** The events of an optional call. *)
Definition opt_event {Handler E : Type} (h : option Handler)
    (ev : Handler -> E) : list E :=
  match h with
  | Some f => [ev f]
  | None => []
  end.

(** Events that are a status write or a call of a user callback. *)
Definition is_commit {Value Arg Handler : Type}
    (ev : Event (Value := Value) (Arg := Arg) (Handler := Handler)) : bool :=
  match ev with
  | EvFunc _ _ => false
  | EvConsoleError _ _ _ => false
  | _ => true
  end.

Definition is_func {Value Arg Handler : Type}
    (ev : Event (Value := Value) (Arg := Arg) (Handler := Handler)) : bool :=
  match ev with EvFunc _ _ => true | _ => false end.

Definition is_setStatus {Value Arg Handler : Type}
    (ev : Event (Value := Value) (Arg := Arg) (Handler := Handler)) : bool :=
  match ev with EvSetStatus _ => true | _ => false end.

Definition is_onStart {Value Arg Handler : Type}
    (ev : Event (Value := Value) (Arg := Arg) (Handler := Handler)) : bool :=
  match ev with EvOnStart _ => true | _ => false end.

(** Position of the first event satisfying [p]. *)
Fixpoint index_where {E : Type} (p : E -> bool) (tr : list E) : option nat :=
  match tr with
  | [] => None
  | ev :: tr' =>
      if p ev then Some 0
      else match index_where p tr' with
           | Some i => Some (S i)
           | None => None
           end
  end.

(** The order C1 words: status write, then [onStart], then the task
    function. *)
Definition status_onStart_func_order {Value Arg Handler : Type}
    (tr : list (Event (Value := Value) (Arg := Arg) (Handler := Handler)))
    : Prop :=
  exists i j k,
    index_where is_setStatus tr = Some i /\
    index_where is_onStart tr = Some j /\
    index_where is_func tr = Some k /\
    i < j /\ j < k.

(** ** Notions used to state the properties *)

Section Notions.

Context {Value Arg Handler UserPromise : Type}.
Variable engine_stack : string.

Local Abbreviation State := (State (Value := Value) (Arg := Arg) (Handler := Handler)
                         (UserPromise := UserPromise)).
Local Abbreviation Op := (Op (Value := Value) (Arg := Arg) (Handler := Handler)
                   (UserPromise := UserPromise)).
Local Abbreviation TaskFunction := (TaskFunction (Value := Value) (Arg := Arg)
                            (Handler := Handler) (UserPromise := UserPromise)).
Local Abbreviation Reaction := (Reaction (UserPromise := UserPromise)).
Local Abbreviation Event := (Event (Value := Value) (Arg := Arg)
                                   (Handler := Handler)).
Local Abbreviation Callbacks := (Callbacks (Handler := Handler)).
Local Abbreviation Status := (Status (Value := Value)).
Local Abbreviation Settlement := (Settlement (Value := Value)).
Local Abbreviation Props := (Props (Value := Value) (Arg := Arg)
                                   (Handler := Handler)
                                   (UserPromise := UserPromise)).
Local Abbreviation step := (step engine_stack).
Local Abbreviation exec := (exec engine_stack).

(** What the [try]/[catch] of [run] leaves in [promise]. *)
Definition guarded_promise (c : Completion (PromiseMaybe (UserPromise := UserPromise)))
    : Promise (UserPromise := UserPromise) :=
  match c with
  | Normal (IsPromise p) => Returned p
  | Normal (IsFalsy _) =>
      NewRejected (new_Error engine_stack "Task function did not return a Promise!")
  | Throw e => NewRejected e
  end.

(** [st] with [l] as the continuations still attached. *)
Definition set_reactions (l : list Reaction) (st : State) : State :=
  {| invocationRef := invocationRef st;
     callbacksRef := callbacksRef st;
     status := status st;
     reactions := l;
     trace := trace st |}.

(** Operations that execute [run] or [cancel]. *)
Definition is_call (op : Op) : bool :=
  match op with
  | Run _ _ | Cancel | Unmount => true
  | Mount p => toBoolean (runOnMount p)
  | Render _ | Settle _ _ => false
  end.

(** The counter values handed out by the calls of a history, oldest first. *)
Fixpoint generations (ops : list Op) (st : State) : list nat :=
  match ops with
  | [] => []
  | op :: ops' =>
      (if is_call op then [invocationRef (step op st)] else []) ++
      generations ops' (step op st)
  end.

(** The continuations waiting under generation [inv], oldest first. *)
Definition waiting (inv : nat) (st : State) : list Reaction :=
  filter (fun r => r_invocation r =? inv) (reactions st).

(** No continuation is attached under a generation not yet handed out. *)
Definition well_formed (st : State) : Prop :=
  Forall (fun r => r_invocation r <= invocationRef st) (reactions st).

(** Status left by the continuations of [r] when the counter reads [n]. *)
Definition settle_status (r : Reaction) (env : Settlement) (n : nat)
    (s : Status) : Status :=
  if r_invocation r <? n then s
  else
    match outcome (r_promise r) env with
    | Fulfilled v => {| isRunning := toBoolean (r_leaveRunning r);
                        result := Some v;
                        error := None |}
    | Rejected e => status_failed e
    end.

(** Events the continuations of [r] produce when the counter reads [n] and
    [callbacksRef.current] is [cbs]. *)
Definition settle_events (r : Reaction) (env : Settlement) (n : nat)
    (cbs : Callbacks) : list Event :=
  match outcome (r_promise r) env with
  | Fulfilled v =>
      if r_invocation r <? n then []
      else
        EvSetStatus {| isRunning := toBoolean (r_leaveRunning r);
                       result := Some v;
                       error := None |} ::
        opt_event (onComplete cbs) (fun h => EvOnComplete h v) ++
        opt_event (onFinally cbs) EvOnFinally
  | Rejected e =>
      EvConsoleError (name e) (message e) (stack e) ::
      (if r_invocation r <? n then []
       else
         EvSetStatus (status_failed e) ::
         opt_event (onError cbs) (fun h => EvOnError h e) ++
         opt_event (onFinally cbs) EvOnFinally)
  end.

(** [op] does not deliver the settlement of generation [inv]. *)
Definition not_settling (inv : nat) (op : Op) : bool :=
  match op with
  | Settle j _ => negb (j =? inv)
  | _ => true
  end.

(** Operations whose effect refreshes [callbacksRef.current]. *)
Definition sets_callbacks (op : Op) : bool :=
  match op with
  | Mount _ | Render _ => true
  | _ => false
  end.

(** [st'] differs from [st] by diagnostics at most: same counter, same
    callbacks, same status, and no status write or callback call among the
    new events. *)
Definition silent (st st' : State) : Prop :=
  invocationRef st' = invocationRef st /\
  callbacksRef st' = callbacksRef st /\
  status st' = status st /\
  exists evs,
    trace st' = trace st ++ evs /\
    forallb (fun ev => negb (is_commit ev)) evs = true.

(** Settlements delivered by the event loop, as operations. *)
Definition settle_ops (l : list (nat * Settlement)) : list Op :=
  map (fun s => Settle (fst s) (snd s)) l.

(** The status writes and callback calls of a state's trace. *)
Definition commits (st : State) : list Event := filter is_commit (trace st).

(** The environment rejects generation [inv] with [e], if it settles it. *)
Definition rejects (inv : nat) (e : Error) (op : Op) : Prop :=
  match op with
  | Settle j env => j = inv -> env = Rejected e
  | _ => True
  end.

(** Two continuations that behave alike: equal, or attached under [inv] to
    a promise made rejected with [e] on one side and to a task's promise on
    the other. *)
Definition alike (inv : nat) (e : Error) (ra rb : Reaction) : Prop :=
  ra = rb \/
  (r_invocation ra = inv /\ r_invocation rb = inv /\
   r_leaveRunning ra = r_leaveRunning rb /\
   r_promise ra = NewRejected e /\
   exists q, r_promise rb = Returned q).

(** States with the same cells and trace, and continuations alike. *)
Definition similar (inv : nat) (e : Error) (a b : State) : Prop :=
  invocationRef a = invocationRef b /\
  callbacksRef a = callbacksRef b /\
  status a = status b /\
  trace a = trace b /\
  Forall2 (alike inv e) (reactions a) (reactions b).

(** Operations that call the task function. *)
Definition calls_func (op : Op) : bool :=
  match op with
  | Run _ _ => true
  | Mount p => toBoolean (runOnMount p)
  | _ => false
  end.

(** The [this.invocation] numbers of the task function calls of a trace,
    oldest first. *)
Definition func_invocations (tr : list Event) : list nat :=
  flat_map (fun ev => match ev with EvFunc i _ => [i] | _ => [] end) tr.

(** A status never shows a result together with an error, and shows an error
    only when not running. *)
Definition status_consistent (s : Status) : Prop :=
  match error s with
  | Some _ => result s = None /\ isRunning s = false
  | None => True
  end.

(** Every generation has at most one continuation waiting. *)
Definition single_flight (st : State) : Prop :=
  forall inv, List.length (waiting inv st) <= 1.

(** The invariant of reachable states: continuations belong to generations
    handed out, one each at most, and while the current generation's is
    waiting the status is the running one. *)
Definition coherent (st : State) : Prop :=
  well_formed st /\
  single_flight st /\
  (waiting (invocationRef st) st <> [] -> status st = status_running).

End Notions.

(** * A concrete hook

    Results are strings, callbacks are named by strings, and the promise made
    by the [n]-th invocation is numbered [n]. *)

Module Sample.

Local Open Scope string_scope.

Definition stk : string := "Error: at run".

Definition sample_callbacks : Callbacks (Handler := string) :=
  {| onStart := Some "onStart";
     onComplete := Some "onComplete";
     onError := Some "onError";
     onFinally := Some "onFinally" |}.

Definition later_callbacks : Callbacks (Handler := string) :=
  {| onStart := Some "onStart'";
     onComplete := Some "onComplete'";
     onError := None;
     onFinally := Some "onFinally'" |}.

(** [async func() { ... }]: always returns a promise. *)
Definition fetch : TaskFunction (Value := string) (Arg := nat)
                                (Handler := string) (UserPromise := nat) :=
  fun this _ => Normal (IsPromise (invocation this)).

Definition boom : Error :=
  {| name := "TypeError"; message := "boom"; stack := "TypeError: boom" |}.

(** [func() { throw boom }] *)
Definition thrower : TaskFunction (Value := string) (Arg := nat)
                                  (Handler := string) (UserPromise := nat) :=
  fun _ _ => Throw boom.

(** [func() { return undefined }] *)
Definition idler : TaskFunction (Value := string) (Arg := nat)
                                (Handler := string) (UserPromise := nat) :=
  fun _ _ => Normal (IsFalsy FalsyUndefined).

Definition sample_props : Props :=
  {| func := fetch;
     runOnMount := None;
     leaveRunning := None;
     callbacks := sample_callbacks |}.

Definition mounting_props : Props :=
  {| func := fetch;
     runOnMount := Some true;
     leaveRunning := None;
     callbacks := sample_callbacks |}.

Definition leaving_props : Props :=
  {| func := fetch;
     runOnMount := None;
     leaveRunning := Some true;
     callbacks := sample_callbacks |}.

Definition later_props : Props :=
  {| func := fetch;
     runOnMount := None;
     leaveRunning := None;
     callbacks := later_callbacks |}.

Definition idler_props : Props :=
  {| func := idler;
     runOnMount := None;
     leaveRunning := None;
     callbacks := sample_callbacks |}.

Definition missing_promise : Error :=
  new_Error stk "Task function did not return a Promise!".

End Sample.

(** * Properties *)

Section Facts.

Context {Value Arg Handler UserPromise : Type}.
Variable engine_stack : string.

Local Abbreviation State := (State (Value := Value) (Arg := Arg) (Handler := Handler)
                         (UserPromise := UserPromise)).
Local Abbreviation Op := (Op (Value := Value) (Arg := Arg) (Handler := Handler)
                   (UserPromise := UserPromise)).
Local Abbreviation TaskFunction := (TaskFunction (Value := Value) (Arg := Arg)
                            (Handler := Handler) (UserPromise := UserPromise)).
Local Abbreviation Reaction := (Reaction (UserPromise := UserPromise)).
Local Abbreviation Event := (Event (Value := Value) (Arg := Arg)
                                   (Handler := Handler)).
Local Abbreviation Callbacks := (Callbacks (Handler := Handler)).
Local Abbreviation Status := (Status (Value := Value)).
Local Abbreviation Settlement := (Settlement (Value := Value)).
Local Abbreviation Props := (Props (Value := Value) (Arg := Arg)
                                   (Handler := Handler)
                                   (UserPromise := UserPromise)).
Local Abbreviation step := (step engine_stack).
Local Abbreviation exec := (exec engine_stack).
Local Abbreviation run := (run engine_stack).
Local Abbreviation guarded_promise := (guarded_promise engine_stack).
Local Abbreviation generations := (generations engine_stack).

(** ** Each function as one state update *)

Lemma run_eq (f : TaskFunction) leave args (st : State) :
  run f leave args st =
  (Normal tt,
   {| invocationRef := S (invocationRef st);
      callbacksRef := callbacksRef st;
      status := status_running;
      reactions := reactions st ++
        [ {| r_promise := guarded_promise
                            (f (make_thisArg (S (invocationRef st))) args);
             r_invocation := S (invocationRef st);
             r_leaveRunning := leave |} ];
      trace := trace st ++
        EvFunc (S (invocationRef st)) args ::
        EvSetStatus status_running ::
        opt_event (onStart (callbacksRef st)) EvOnStart |}).
Proof.
  unfold run, bind, try_catch, apply_func, read_invocationRef,
    read_callbacksRef, incr_invocationRef, call_opt, setStatus, attach, emit,
    throw, ret; cbn.
  destruct (f _ args) as [[p | v] | e]; cbn;
    destruct (onStart (callbacksRef st)); cbn;
    rewrite <- ?app_assoc; reflexivity.
Qed.

Lemma cancel_eq (st : State) :
  cancel st =
  (Normal tt,
   {| invocationRef := S (invocationRef st);
      callbacksRef := callbacksRef st;
      status := status_idle;
      reactions := reactions st;
      trace := trace st ++ [EvSetStatus status_idle] |}).
Proof. reflexivity. Qed.

Lemma onFulfilled_eq inv leave v (st : State) :
  onFulfilled inv leave v st =
  (Normal tt,
   if inv <? invocationRef st then st
   else
     {| invocationRef := invocationRef st;
        callbacksRef := callbacksRef st;
        status := {| isRunning := toBoolean leave;
                     result := Some v;
                     error := None |};
        reactions := reactions st;
        trace := trace st ++
          EvSetStatus {| isRunning := toBoolean leave;
                         result := Some v;
                         error := None |} ::
          opt_event (onComplete (callbacksRef st)) (fun h => EvOnComplete h v) ++
          opt_event (onFinally (callbacksRef st)) EvOnFinally |}).
Proof.
  unfold onFulfilled, bind, read_invocationRef, read_callbacksRef, call_opt,
    setStatus, emit, ret; cbv beta iota.
  destruct (inv <? invocationRef st); [reflexivity |].
  cbn.
  destruct (onComplete (callbacksRef st)); cbn;
    destruct (onFinally (callbacksRef st)); cbn;
    rewrite <- ?app_assoc; reflexivity.
Qed.

Lemma onRejected_eq inv e (st : State) :
  onRejected inv e st =
  (Normal tt,
   {| invocationRef := invocationRef st;
      callbacksRef := callbacksRef st;
      status := if inv <? invocationRef st then status st else status_failed e;
      reactions := reactions st;
      trace := trace st ++
        EvConsoleError (name e) (message e) (stack e) ::
        (if inv <? invocationRef st then []
         else
           EvSetStatus (status_failed e) ::
           opt_event (onError (callbacksRef st)) (fun h => EvOnError h e) ++
           opt_event (onFinally (callbacksRef st)) EvOnFinally) |}).
Proof.
  unfold onRejected, bind, console_error, read_invocationRef,
    read_callbacksRef, call_opt, setStatus, emit, ret; cbn -[Nat.ltb].
  destruct (inv <? invocationRef st); [reflexivity |].
  cbn.
  destruct (onError (callbacksRef st)); cbn;
    destruct (onFinally (callbacksRef st)); cbn;
    rewrite <- ?app_assoc; reflexivity.
Qed.

(** [promise.then(A).catch(B)] never leaves a rejection unhandled: [A] does
    not throw, and neither does [B]. *)
Lemma deliver_eq (r : Reaction) env (st : State) :
  deliver r env st =
  (Normal tt,
   match outcome (r_promise r) env with
   | Fulfilled v =>
       snd (onFulfilled (r_invocation r) (r_leaveRunning r) v st)
   | Rejected e => snd (onRejected (r_invocation r) e st)
   end).
Proof.
  unfold deliver, try_catch.
  destruct (outcome (r_promise r) env) as [v | e].
  - rewrite onFulfilled_eq. reflexivity.
  - rewrite onRejected_eq. reflexivity.
Qed.

Lemma settle_eq inv env (st : State) :
  settle inv env st =
  (Normal tt,
   match take_reaction inv (reactions st) with
   | None => st
   | Some (r, rest) => snd (deliver r env (set_reactions rest st))
   end).
Proof.
  unfold settle.
  destruct (take_reaction inv (reactions st)) as [[r rest] |]; [| reflexivity].
  fold (set_reactions rest st). rewrite deliver_eq. reflexivity.
Qed.

(** ** Stepping *)

Lemma step_Run p args (st : State) :
  step (Run p args) st = snd (run (func p) (leaveRunning p) args st).
Proof. reflexivity. Qed.

Lemma step_Cancel (st : State) : step Cancel st = snd (cancel st).
Proof. reflexivity. Qed.

Lemma step_Unmount (st : State) : step Unmount st = snd (cancel st).
Proof. reflexivity. Qed.

Lemma step_Render p (st : State) :
  step (Render p) st =
  {| invocationRef := invocationRef st;
     callbacksRef := callbacks p;
     status := status st;
     reactions := reactions st;
     trace := trace st |}.
Proof. reflexivity. Qed.

Lemma step_Mount p (st : State) :
  step (Mount p) st =
  if toBoolean (runOnMount p)
  then step (Run p []) (step (Render p) st)
  else step (Render p) st.
Proof.
  unfold step, perform, effect_callbacks, effect_runOnMount, bind,
    write_callbacksRef.
  destruct (toBoolean (runOnMount p)); reflexivity.
Qed.

Lemma step_Settle inv env (st : State) :
  step (Settle inv env) st =
  match take_reaction inv (reactions st) with
  | None => st
  | Some (r, rest) => snd (deliver r env (set_reactions rest st))
  end.
Proof. unfold step, perform. rewrite settle_eq. reflexivity. Qed.

Lemma exec_cons op ops (st : State) :
  exec (op :: ops) st = exec ops (step op st).
Proof. reflexivity. Qed.

Lemma exec_app ops1 ops2 (st : State) :
  exec (ops1 ++ ops2) st = exec ops2 (exec ops1 st).
Proof. unfold exec. apply fold_left_app. Qed.

(** ** What the continuations leave untouched *)

Lemma deliver_invocationRef (r : Reaction) env (st : State) :
  invocationRef (snd (deliver r env st)) = invocationRef st.
Proof.
  rewrite deliver_eq; cbn [snd].
  destruct (outcome (r_promise r) env);
    [rewrite onFulfilled_eq | rewrite onRejected_eq]; cbn [snd];
    destruct (r_invocation r <? invocationRef st); reflexivity.
Qed.

Lemma deliver_callbacksRef (r : Reaction) env (st : State) :
  callbacksRef (snd (deliver r env st)) = callbacksRef st.
Proof.
  rewrite deliver_eq; cbn [snd].
  destruct (outcome (r_promise r) env);
    [rewrite onFulfilled_eq | rewrite onRejected_eq]; cbn [snd];
    destruct (r_invocation r <? invocationRef st); reflexivity.
Qed.

Lemma deliver_reactions (r : Reaction) env (st : State) :
  reactions (snd (deliver r env st)) = reactions st.
Proof.
  rewrite deliver_eq; cbn [snd].
  destruct (outcome (r_promise r) env);
    [rewrite onFulfilled_eq | rewrite onRejected_eq]; cbn [snd];
    destruct (r_invocation r <? invocationRef st); reflexivity.
Qed.

(** ** The generation counter *)

Lemma step_invocationRef op (st : State) :
  invocationRef (step op st) =
  if is_call op then S (invocationRef st) else invocationRef st.
Proof.
  destruct op as [p | p | p args | | | inv env]; cbn [is_call].
  - rewrite step_Mount. destruct (toBoolean (runOnMount p)).
    + rewrite step_Run, run_eq. reflexivity.
    + reflexivity.
  - reflexivity.
  - rewrite step_Run, run_eq. reflexivity.
  - reflexivity.
  - reflexivity.
  - rewrite step_Settle.
    destruct (take_reaction inv (reactions st)) as [[r rest] |];
      [rewrite deliver_invocationRef |]; reflexivity.
Qed.

Lemma step_invocationRef_le op (st : State) :
  invocationRef st <= invocationRef (step op st).
Proof. rewrite step_invocationRef. destruct (is_call op); lia. Qed.

Lemma exec_invocationRef_le ops (st : State) :
  invocationRef st <= invocationRef (exec ops st).
Proof.
  revert st. induction ops as [| op ops IH]; intros st; [apply Nat.le_refl |].
  rewrite exec_cons.
  apply Nat.le_trans with (invocationRef (step op st));
    [apply step_invocationRef_le | apply IH].
Qed.

Lemma generations_above ops (st : State) :
  Forall (fun g => invocationRef st < g) (generations ops st).
Proof.
  revert st. induction ops as [| op ops IH]; intros st; cbn [generations].
  - constructor.
  - apply Forall_app. split.
    + destruct (is_call op) eqn:E; [| constructor].
      constructor; [| constructor].
      rewrite step_invocationRef, E. lia.
    + eapply Forall_impl; [| apply IH].
      intros g Hg. cbn in Hg.
      pose proof (step_invocationRef_le op st). lia.
Qed.

Lemma generations_sorted ops (st : State) :
  StronglySorted lt (generations ops st).
Proof.
  revert st. induction ops as [| op ops IH]; intros st; cbn [generations].
  - constructor.
  - destruct (is_call op); cbn [app]; [| apply IH].
    constructor; [apply IH | apply generations_above].
Qed.

Lemma sorted_lt_NoDup (l : list nat) : StronglySorted lt l -> NoDup l.
Proof.
  induction 1 as [| a l Hs IH Ha]; constructor; [| exact IH].
  intros Hin. rewrite Forall_forall in Ha. specialize (Ha a Hin). lia.
Qed.

Lemma isCanceled_make_thisArg inv (st : State) :
  isCanceled (make_thisArg inv) st = (inv <? invocationRef st).
Proof. reflexivity. Qed.

(** ** Construction *)

(** C10.  The first render leaves the status
    [{ isRunning: !!runOnMount, result: null, error: null }]; no generation
    has been handed out and nothing has been called yet, so with
    [runOnMount: true] the hook reports [isRunning] before the mount effect
    calls [run]. *)
Theorem initial_status (props : Props) :
  status (useAsyncTask_init props) =
    {| isRunning := toBoolean (runOnMount props);
       result := None;
       error := None |} /\
  invocationRef (useAsyncTask_init props) = 0 /\
  reactions (useAsyncTask_init props) = [] /\
  trace (useAsyncTask_init props) = [] /\
  (forall (f : TaskFunction) leave cbs,
     isRunning (status (useAsyncTask_init (mkProps f (Some true) leave cbs)))
       = true /\
     index_where is_func
       (trace (useAsyncTask_init (mkProps f (Some true) leave cbs))) = None).
Proof.
  repeat split; reflexivity.
Qed.

(** ** [run] *)

(** C1, as the code has it.  [run] first takes a new generation, then calls
    the task function (under the [try]) with that generation, then writes the
    status [{ isRunning: true, result: null, error: null }], then calls
    [onStart] when it is defined.  When [run] returns, one more pair of
    continuations is attached, to the promise the [try]/[catch] produced. *)
Theorem run_order (f : TaskFunction) leave args (st : State) :
  let st' := snd (run f leave args st) in
  invocationRef st' = S (invocationRef st) /\
  trace st' =
    trace st ++
    EvFunc (S (invocationRef st)) args ::
    EvSetStatus status_running ::
    opt_event (onStart (callbacksRef st)) EvOnStart /\
  status st' = status_running /\
  callbacksRef st' = callbacksRef st /\
  reactions st' =
    reactions st ++
    [ {| r_promise :=
           guarded_promise (f (make_thisArg (S (invocationRef st))) args);
         r_invocation := S (invocationRef st);
         r_leaveRunning := leave |} ].
Proof.
  rewrite run_eq. cbn. repeat split; reflexivity.
Qed.

(** ** [cancel] *)

(** C4.  [cancel], from any state, adds one to the counter, so every
    generation handed out so far is superseded; it writes the status
    [{ isRunning: false, result: null, error: null }] and calls nothing else.
    A second [cancel] leaves the same status, and from the idle status the
    status does not change. *)
Theorem cancel_resets (st : State) :
  let st' := step Cancel st in
  invocationRef st' = S (invocationRef st) /\
  (forall inv, inv <= invocationRef st ->
     isCanceled (make_thisArg inv) st' = true) /\
  status st' = status_idle /\
  callbacksRef st' = callbacksRef st /\
  reactions st' = reactions st /\
  trace st' = trace st ++ [EvSetStatus status_idle] /\
  status (step Cancel st') = status st' /\
  (status st = status_idle -> status st' = status st).
Proof.
  cbn zeta. rewrite !step_Cancel, !cancel_eq. cbn [snd].
  repeat split; try reflexivity.
  - intros inv Hinv. rewrite isCanceled_make_thisArg. cbn [invocationRef].
    apply Nat.ltb_lt. lia.
  - intros H. cbn [status]. symmetry. exact H.
Qed.

(** ** The counter *)

(** C9.  Every [run] and every [cancel] adds exactly one to the counter and
    nothing lowers it, so the values handed out along any history are strictly
    increasing and pairwise distinct; a token that reports itself canceled
    keeps doing so whatever happens next. *)
Theorem generation_counter_monotone :
  (forall p args (st : State),
     invocationRef (step (Run p args) st) = S (invocationRef st)) /\
  (forall st : State, invocationRef (step Cancel st) = S (invocationRef st)) /\
  (forall op (st : State), invocationRef st <= invocationRef (step op st)) /\
  (forall ops (st : State),
     StronglySorted lt (invocationRef st :: generations ops st)) /\
  (forall ops (st : State), NoDup (invocationRef st :: generations ops st)) /\
  (forall inv ops (st : State),
     isCanceled (make_thisArg inv) st = true ->
     isCanceled (make_thisArg inv) (exec ops st) = true).
Proof.
  assert (Hsorted : forall ops (st : State),
             StronglySorted lt (invocationRef st :: generations ops st)).
  { intros ops st. constructor;
      [apply generations_sorted | apply generations_above]. }
  refine (conj _ (conj _ (conj _ (conj _ (conj _ _))))).
  - intros p args st. rewrite step_invocationRef. reflexivity.
  - intros st. rewrite step_invocationRef. reflexivity.
  - apply step_invocationRef_le.
  - exact Hsorted.
  - intros ops st. apply sorted_lt_NoDup, Hsorted.
  - intros inv ops st. rewrite !isCanceled_make_thisArg, !Nat.ltb_lt.
    intros H. pose proof (exec_invocationRef_le ops st). lia.
Qed.

(** ** Continuations in flight *)

Lemma take_reaction_invocation inv (l : list Reaction) r rest :
  take_reaction inv l = Some (r, rest) -> r_invocation r = inv.
Proof.
  revert r rest. induction l as [| a l IH]; intros r rest; cbn; [discriminate |].
  destruct (r_invocation a =? inv) eqn:E.
  - intros H; injection H as <- <-. apply Nat.eqb_eq, E.
  - destruct (take_reaction inv l) as [[r' rest'] |]; [| discriminate].
    intros H; injection H as <- <-. eapply IH; reflexivity.
Qed.

Lemma take_reaction_filter_same inv (l : list Reaction) r rest :
  take_reaction inv l = Some (r, rest) ->
  filter (fun x => r_invocation x =? inv) l =
  r :: filter (fun x => r_invocation x =? inv) rest.
Proof.
  revert r rest. induction l as [| a l IH]; intros r rest; cbn; [discriminate |].
  destruct (r_invocation a =? inv) eqn:E.
  - intros H; injection H as <- <-. reflexivity.
  - destruct (take_reaction inv l) as [[r' rest'] |]; [| discriminate].
    intros H; injection H as <- <-. cbn. rewrite E. eapply IH; reflexivity.
Qed.

Lemma take_reaction_filter_other j inv (l : list Reaction) r rest :
  take_reaction j l = Some (r, rest) -> j <> inv ->
  filter (fun x => r_invocation x =? inv) rest =
  filter (fun x => r_invocation x =? inv) l.
Proof.
  intros H Hne. revert r rest H.
  induction l as [| a l IH]; intros r rest; cbn; [discriminate |].
  destruct (r_invocation a =? j) eqn:E.
  - intros H; injection H as <- <-.
    apply Nat.eqb_eq in E.
    destruct (r_invocation a =? inv) eqn:E'; [| reflexivity].
    apply Nat.eqb_eq in E'. congruence.
  - destruct (take_reaction j l) as [[r' rest'] |]; [| discriminate].
    intros H; injection H as <- <-. cbn.
    rewrite (IH r' rest' eq_refl). reflexivity.
Qed.

Lemma take_reaction_None inv (l : list Reaction) :
  take_reaction inv l = None ->
  filter (fun x => r_invocation x =? inv) l = [].
Proof.
  induction l as [| a l IH]; cbn; [reflexivity |].
  destruct (r_invocation a =? inv); [discriminate |].
  destruct (take_reaction inv l) as [[r' rest'] |]; [discriminate |].
  intros _. apply IH. reflexivity.
Qed.

Lemma take_reaction_Forall (P : Reaction -> Prop) inv (l : list Reaction) r rest :
  take_reaction inv l = Some (r, rest) -> Forall P l -> Forall P rest.
Proof.
  revert r rest. induction l as [| a l IH]; intros r rest; cbn; [discriminate |].
  destruct (r_invocation a =? inv).
  - intros H; injection H as <- <-. intros HF. inversion HF; assumption.
  - destruct (take_reaction inv l) as [[r' rest'] |]; [| discriminate].
    intros H; injection H as <- <-. intros HF. inversion HF; subst.
    constructor; [assumption | eapply IH; [reflexivity | assumption]].
Qed.

(** The head of [waiting inv] is the continuation [settle inv] runs. *)
Lemma waiting_take inv (st : State) r l :
  waiting inv st = r :: l ->
  exists rest, take_reaction inv (reactions st) = Some (r, rest) /\
               filter (fun x => r_invocation x =? inv) rest = l.
Proof.
  unfold waiting. intros H.
  destruct (take_reaction inv (reactions st)) as [[r' rest] |] eqn:E.
  - rewrite (take_reaction_filter_same _ _ E) in H.
    injection H as -> <-. exists rest. split; reflexivity.
  - rewrite (take_reaction_None _ _ E) in H. discriminate.
Qed.

Lemma deliver_set_reactions (r : Reaction) env l (st : State) :
  snd (deliver r env (set_reactions l st)) =
  set_reactions l (snd (deliver r env st)).
Proof.
  rewrite !deliver_eq; cbn [snd].
  destruct (outcome (r_promise r) env);
    [rewrite !onFulfilled_eq | rewrite !onRejected_eq]; cbn [snd];
    unfold set_reactions; cbn [invocationRef];
    destruct (r_invocation r <? invocationRef st); reflexivity.
Qed.

Lemma step_Settle_take inv env (st : State) r rest :
  take_reaction inv (reactions st) = Some (r, rest) ->
  step (Settle inv env) st = set_reactions rest (snd (deliver r env st)).
Proof.
  intros H. rewrite step_Settle, H. apply deliver_set_reactions.
Qed.

Lemma step_Settle_none inv env (st : State) :
  take_reaction inv (reactions st) = None ->
  step (Settle inv env) st = st.
Proof. intros H. rewrite step_Settle, H. reflexivity. Qed.

(** [well_formed] holds at construction and is kept by every operation. *)
Lemma well_formed_init (props : Props) :
  well_formed (useAsyncTask_init props).
Proof. constructor. Qed.

Lemma well_formed_step op (st : State) :
  well_formed st -> well_formed (step op st).
Proof.
  unfold well_formed. intros H.
  assert (Hrun : forall p args (s : State),
             Forall (fun r => r_invocation r <= invocationRef s) (reactions s) ->
             Forall (fun r => r_invocation r <= invocationRef (step (Run p args) s))
                    (reactions (step (Run p args) s))).
  { intros p args s Hs. rewrite step_Run, run_eq. cbn.
    apply Forall_app. split.
    - eapply Forall_impl; [| exact Hs]. cbn. intros; lia.
    - constructor; [cbn; lia | constructor]. }
  destruct op as [p | p | p args | | | inv env].
  - rewrite step_Mount. destruct (toBoolean (runOnMount p));
      [apply Hrun |]; rewrite step_Render; exact H.
  - rewrite step_Render. exact H.
  - apply Hrun, H.
  - rewrite step_Cancel, cancel_eq. cbn.
    eapply Forall_impl; [| exact H]. cbn. intros; lia.
  - rewrite step_Unmount, cancel_eq. cbn.
    eapply Forall_impl; [| exact H]. cbn. intros; lia.
  - destruct (take_reaction inv (reactions st)) as [[r rest] |] eqn:E.
    + rewrite step_Settle_take with (r := r) (rest := rest) by exact E. cbn [set_reactions reactions invocationRef].
      rewrite deliver_invocationRef.
      eapply take_reaction_Forall; [exact E | exact H].
    + rewrite step_Settle_none by exact E. exact H.
Qed.

Lemma well_formed_exec ops (st : State) :
  well_formed st -> well_formed (exec ops st).
Proof.
  revert st. induction ops as [| op ops IH]; intros st H; [exact H |].
  rewrite exec_cons. apply IH, well_formed_step, H.
Qed.

Lemma well_formed_reachable (props : Props) history :
  well_formed (exec history (useAsyncTask_init props)).
Proof. apply well_formed_exec, well_formed_init. Qed.

(** ** The effect of one settlement, in closed form *)

Lemma deliver_closed_form (r : Reaction) env (st : State) :
  snd (deliver r env st) =
  {| invocationRef := invocationRef st;
     callbacksRef := callbacksRef st;
     status := settle_status r env (invocationRef st) (status st);
     reactions := reactions st;
     trace := trace st ++
              settle_events r env (invocationRef st) (callbacksRef st) |}.
Proof.
  rewrite deliver_eq; cbn [snd]. unfold settle_status, settle_events.
  destruct (outcome (r_promise r) env) as [v | e];
    [rewrite onFulfilled_eq | rewrite onRejected_eq]; cbn [snd];
    destruct (r_invocation r <? invocationRef st); try reflexivity.
  destruct st; cbn. rewrite app_nil_r. reflexivity.
Qed.

Lemma settle_closed_form inv env (st : State) r rest :
  take_reaction inv (reactions st) = Some (r, rest) ->
  step (Settle inv env) st =
  {| invocationRef := invocationRef st;
     callbacksRef := callbacksRef st;
     status := settle_status r env (invocationRef st) (status st);
     reactions := rest;
     trace := trace st ++
              settle_events r env (invocationRef st) (callbacksRef st) |}.
Proof.
  intros H. rewrite step_Settle_take with (r := r) (rest := rest) by exact H.
  rewrite deliver_closed_form. reflexivity.
Qed.

(** ** Tracking one invocation through a history *)

Lemma waiting_run inv p args (st : State) :
  inv <= invocationRef st ->
  waiting inv (step (Run p args) st) = waiting inv st.
Proof.
  intros H. unfold waiting. rewrite step_Run, run_eq. cbn [snd reactions].
  rewrite filter_app. cbn [filter r_invocation].
  replace (S (invocationRef st) =? inv) with false
    by (symmetry; apply Nat.eqb_neq; lia).
  apply app_nil_r.
Qed.

Lemma step_waiting inv op (st : State) :
  inv <= invocationRef st -> not_settling inv op = true ->
  waiting inv (step op st) = waiting inv st.
Proof.
  intros Hle Hq.
  destruct op as [p | p | p args | | | j env].
  - rewrite step_Mount. destruct (toBoolean (runOnMount p)); [| reflexivity].
    rewrite waiting_run; [reflexivity | exact Hle].
  - reflexivity.
  - apply waiting_run, Hle.
  - reflexivity.
  - reflexivity.
  - cbn in Hq. apply negb_true_iff, Nat.eqb_neq in Hq.
    destruct (take_reaction j (reactions st)) as [[r rest] |] eqn:E.
    + rewrite settle_closed_form with (r := r) (rest := rest) by exact E.
      unfold waiting; cbn [reactions].
      eapply take_reaction_filter_other; [exact E | exact Hq].
    + rewrite step_Settle_none by exact E. reflexivity.
Qed.

Lemma exec_waiting inv ops (st : State) :
  inv <= invocationRef st -> forallb (not_settling inv) ops = true ->
  waiting inv (exec ops st) = waiting inv st.
Proof.
  revert st. induction ops as [| op ops IH]; intros st Hle Hq; [reflexivity |].
  cbn in Hq. apply andb_true_iff in Hq as [Hop Hops].
  rewrite exec_cons, IH.
  - apply step_waiting; assumption.
  - pose proof (step_invocationRef_le op st). lia.
  - exact Hops.
Qed.

(** On a well-formed state [run] leaves exactly one continuation waiting
    under the generation it took. *)
Lemma waiting_new p args (st : State) :
  well_formed st ->
  waiting (S (invocationRef st)) (step (Run p args) st) =
  [ {| r_promise :=
         guarded_promise (func p (make_thisArg (S (invocationRef st))) args);
       r_invocation := S (invocationRef st);
       r_leaveRunning := leaveRunning p |} ].
Proof.
  intros Hwf. unfold waiting. rewrite step_Run, run_eq. cbn [snd reactions].
  rewrite filter_app. cbn [filter r_invocation]. rewrite Nat.eqb_refl.
  replace (filter _ (reactions st)) with (@nil Reaction); [reflexivity |].
  symmetry. unfold well_formed in Hwf.
  induction Hwf as [| r l Hr Hl IH]; [reflexivity |].
  cbn [filter]. replace (r_invocation r =? S (invocationRef st)) with false
    by (symmetry; apply Nat.eqb_neq; lia).
  exact IH.
Qed.

(** The settlement of an invocation still in flight, after any history that
    has not delivered it yet. *)
Lemma settle_after_run p args ops env (st : State) :
  well_formed st ->
  forallb (not_settling (S (invocationRef st))) ops = true ->
  let inv := S (invocationRef st) in
  let st2 := exec ops (step (Run p args) st) in
  let r := {| r_promise := guarded_promise (func p (make_thisArg inv) args);
              r_invocation := inv;
              r_leaveRunning := leaveRunning p |} in
  exists rest,
    step (Settle inv env) st2 =
    {| invocationRef := invocationRef st2;
       callbacksRef := callbacksRef st2;
       status := settle_status r env (invocationRef st2) (status st2);
       reactions := rest;
       trace := trace st2 ++
                settle_events r env (invocationRef st2) (callbacksRef st2) |}.
Proof.
  intros Hwf Hq inv st2 r.
  assert (Hw : waiting inv st2 = [r]).
  { unfold st2. rewrite exec_waiting.
    - apply waiting_new, Hwf.
    - rewrite step_Run, run_eq. cbn. unfold inv. lia.
    - exact Hq. }
  apply waiting_take in Hw as (rest & Htake & _).
  exists rest. apply settle_closed_form, Htake.
Qed.

(** ** Settlement of the invocation in flight *)

(** C7.  [run] is called in a reachable state and its task function returns
    a promise; later, with no [run] or [cancel] since (the token is not
    canceled), the promise is fulfilled with [v].  The continuation writes
    [{ isRunning: !!leaveRunning, result: v, error: null }], then calls
    [onComplete(v)], then [onFinally()], each when defined; [isRunning] stays
    true exactly when [leaveRunning] is [true]. *)
Theorem success_commits (props0 : Props) history (p : Props) args q ops v :
  let st0 := exec history (useAsyncTask_init props0) in
  let st1 := step (Run p args) st0 in
  let inv := invocationRef st1 in
  let st2 := exec ops st1 in
  let st3 := step (Settle inv (Fulfilled v)) st2 in
  let committed := {| isRunning := toBoolean (leaveRunning p);
                      result := Some v;
                      error := None |} in
  func p (make_thisArg inv) args = Normal (IsPromise q) ->
  forallb (not_settling inv) ops = true ->
  isCanceled (make_thisArg inv) st2 = false ->
  status st3 = committed /\
  trace st3 =
    trace st2 ++
    EvSetStatus committed ::
    opt_event (onComplete (callbacksRef st2)) (fun h => EvOnComplete h v) ++
    opt_event (onFinally (callbacksRef st2)) EvOnFinally /\
  (isRunning (status st3) = true <-> leaveRunning p = Some true) /\
  (isRunning (status st3) = false <-> leaveRunning p <> Some true).
Proof.
  intros st0 st1 inv st2 st3 committed Hf Hq Hlive.
  assert (Hinv : inv = S (invocationRef st0))
    by (unfold inv, st1; rewrite step_invocationRef; reflexivity).
  rewrite Hinv in Hf, Hq, Hlive.
  destruct (settle_after_run p args ops (Fulfilled v)
              (well_formed_reachable props0 history) Hq) as [rest Hst].
  fold st0 st1 st2 in Hst.
  assert (Hst3 : status st3 = committed /\
                 trace st3 = trace st2 ++
                   EvSetStatus committed ::
                   opt_event (onComplete (callbacksRef st2))
                             (fun h => EvOnComplete h v) ++
                   opt_event (onFinally (callbacksRef st2)) EvOnFinally).
  { unfold st3. rewrite Hinv, Hst. cbn [status trace].
    unfold settle_status, settle_events. cbn [r_invocation r_promise r_leaveRunning].
    rewrite isCanceled_make_thisArg in Hlive. rewrite Hlive, Hf.
    split; reflexivity. }
  destruct Hst3 as [Hs Ht].
  refine (conj Hs (conj Ht _)). rewrite Hs. unfold committed. cbn [isRunning].
  destruct (leaveRunning p) as [[|] |]; cbn; split;
    split; intros H; congruence.
Qed.

(** C3.  [run] is called in a reachable state and its task function returns
    a promise, which is later rejected with [e].  The continuation first
    prints the error, canceled or not; then, unless the token is canceled,
    it writes [{ isRunning: false, result: null, error: e }], calls
    [onError(e)] and then [onFinally()], each when defined.  A canceled token
    leaves the status as it was. *)
Theorem failure_path (props0 : Props) history (p : Props) args q ops e :
  let st0 := exec history (useAsyncTask_init props0) in
  let st1 := step (Run p args) st0 in
  let inv := invocationRef st1 in
  let st2 := exec ops st1 in
  let st3 := step (Settle inv (Rejected e)) st2 in
  let superseded := isCanceled (make_thisArg inv) st2 in
  func p (make_thisArg inv) args = Normal (IsPromise q) ->
  forallb (not_settling inv) ops = true ->
  trace st3 =
    trace st2 ++
    EvConsoleError (name e) (message e) (stack e) ::
    (if superseded then []
     else
       EvSetStatus (status_failed e) ::
       opt_event (onError (callbacksRef st2)) (fun h => EvOnError h e) ++
       opt_event (onFinally (callbacksRef st2)) EvOnFinally) /\
  status st3 = (if superseded then status st2 else status_failed e) /\
  invocationRef st3 = invocationRef st2 /\
  callbacksRef st3 = callbacksRef st2.
Proof.
  intros st0 st1 inv st2 st3 superseded Hf Hq.
  assert (Hinv : inv = S (invocationRef st0))
    by (unfold inv, st1; rewrite step_invocationRef; reflexivity).
  unfold superseded. rewrite Hinv in Hf, Hq |- *.
  destruct (settle_after_run p args ops (Rejected e)
              (well_formed_reachable props0 history) Hq) as [rest Hst].
  fold st0 st1 st2 in Hst.
  unfold st3. rewrite Hinv, Hst.
  cbn [status trace invocationRef callbacksRef].
  unfold settle_status, settle_events.
  cbn [r_invocation r_promise r_leaveRunning].
  rewrite isCanceled_make_thisArg, Hf. cbn [guarded_promise outcome].
  destruct (S (invocationRef st0) <? invocationRef st2);
    repeat split; reflexivity.
Qed.

(** ** The callback cell *)

Lemma step_callbacksRef op (st : State) :
  sets_callbacks op = false -> callbacksRef (step op st) = callbacksRef st.
Proof.
  destruct op as [p | p | p args | | | inv env]; cbn [sets_callbacks];
    intros H; try discriminate; try reflexivity.
  - rewrite step_Run, run_eq. reflexivity.
  - rewrite step_Settle.
    destruct (take_reaction inv (reactions st)) as [[r rest] |];
      [rewrite deliver_callbacksRef |]; reflexivity.
Qed.

Lemma exec_callbacksRef ops (st : State) :
  forallb (fun op => negb (sets_callbacks op)) ops = true ->
  callbacksRef (exec ops st) = callbacksRef st.
Proof.
  revert st. induction ops as [| op ops IH]; intros st H; [reflexivity |].
  cbn in H. apply andb_true_iff in H as [Hop Hops].
  apply negb_true_iff in Hop.
  rewrite exec_cons, IH by exact Hops. apply step_callbacksRef, Hop.
Qed.

(** C8.  The callbacks are read from [callbacksRef.current] when they are
    called.  If a render with props [p'] refreshes the cell between [run] and
    the settlement, the continuation calls the callbacks of [p'], whatever the
    props were when [run] began; and [run] itself calls the [onStart] of the
    latest render, even when the [run] closure comes from an older one. *)
Theorem latest_callbacks (props0 : Props) history (p p' : Props) args q ops1 ops2 env :
  let st0 := exec history (useAsyncTask_init props0) in
  let st1 := step (Run p args) st0 in
  let inv := invocationRef st1 in
  let st2 := exec (ops1 ++ Render p' :: ops2) st1 in
  let st3 := step (Settle inv env) st2 in
  func p (make_thisArg inv) args = Normal (IsPromise q) ->
  forallb (not_settling inv) (ops1 ++ ops2) = true ->
  forallb (fun op => negb (sets_callbacks op)) ops2 = true ->
  isCanceled (make_thisArg inv) st2 = false ->
  trace st3 =
    trace st2 ++
    match env with
    | Fulfilled v =>
        EvSetStatus {| isRunning := toBoolean (leaveRunning p);
                       result := Some v;
                       error := None |} ::
        opt_event (onComplete (callbacks p')) (fun h => EvOnComplete h v) ++
        opt_event (onFinally (callbacks p')) EvOnFinally
    | Rejected e =>
        EvConsoleError (name e) (message e) (stack e) ::
        EvSetStatus (status_failed e) ::
        opt_event (onError (callbacks p')) (fun h => EvOnError h e) ++
        opt_event (onFinally (callbacks p')) EvOnFinally
    end /\
  trace (step (Run p args) (step (Render p') st0)) =
    trace st0 ++
    EvFunc inv args ::
    EvSetStatus status_running ::
    opt_event (onStart (callbacks p')) EvOnStart.
Proof.
  intros st0 st1 inv st2 st3 Hf Hq Hr Hlive.
  assert (Hinv : inv = S (invocationRef st0))
    by (unfold inv, st1; rewrite step_invocationRef; reflexivity).
  split.
  - rewrite Hinv in Hf, Hq, Hlive.
    assert (Hq' : forallb (not_settling (S (invocationRef st0)))
                    (ops1 ++ Render p' :: ops2) = true).
    { rewrite forallb_app in Hq |- *. cbn [forallb not_settling].
      apply andb_true_iff in Hq as [-> ->]. reflexivity. }
    destruct (settle_after_run p args (ops1 ++ Render p' :: ops2) env
                (well_formed_reachable props0 history) Hq') as [rest Hst].
    fold st0 st1 st2 in Hst.
    assert (Hcb : callbacksRef st2 = callbacks p').
    { unfold st2. rewrite exec_app, exec_cons, exec_callbacksRef by exact Hr.
      reflexivity. }
    unfold st3. rewrite Hinv, Hst. cbn [trace].
    unfold settle_events. cbn [r_invocation r_promise r_leaveRunning].
    rewrite isCanceled_make_thisArg in Hlive. rewrite Hlive, Hf, Hcb.
    cbn [guarded_promise outcome]. destruct env; reflexivity.
  - rewrite step_Run, run_eq, step_Render. cbn [snd trace callbacksRef invocationRef].
    rewrite Hinv. reflexivity.
Qed.

(** ** Settlements that commit nothing *)

Lemma settle_superseded_silent inv env (st : State) :
  inv < invocationRef st -> silent st (step (Settle inv env) st).
Proof.
  intros Hlt.
  destruct (take_reaction inv (reactions st)) as [[r rest] |] eqn:E.
  - rewrite settle_closed_form with (r := r) (rest := rest) by exact E.
    pose proof (take_reaction_invocation _ _ E) as Hr.
    apply Nat.ltb_lt in Hlt.
    unfold silent, settle_status, settle_events.
    cbn [invocationRef callbacksRef status trace]. rewrite Hr, Hlt.
    repeat split.
    destruct (outcome (r_promise r) env) as [v | e]; eexists; split;
      reflexivity.
  - rewrite step_Settle_none by exact E.
    repeat split. exists []. split; [symmetry; apply app_nil_r | reflexivity].
Qed.

Lemma take_reaction_In inv (l : list Reaction) r rest :
  take_reaction inv l = Some (r, rest) -> In r l.
Proof.
  revert r rest. induction l as [| a l IH]; intros r rest; cbn; [discriminate |].
  destruct (r_invocation a =? inv).
  - intros H; injection H as <- <-. left; reflexivity.
  - destruct (take_reaction inv l) as [[r' rest'] |]; [| discriminate].
    intros H; injection H as <- <-. right. eapply IH; reflexivity.
Qed.

(** On a well-formed state only the current generation can commit. *)
Lemma settle_other_silent inv env (st : State) :
  well_formed st -> inv <> invocationRef st ->
  silent st (step (Settle inv env) st).
Proof.
  intros Hwf Hne.
  destruct (take_reaction inv (reactions st)) as [[r rest] |] eqn:E.
  - apply settle_superseded_silent.
    pose proof (take_reaction_invocation _ _ E) as Hr.
    pose proof (take_reaction_In _ _ E) as Hin.
    unfold well_formed in Hwf. rewrite Forall_forall in Hwf.
    specialize (Hwf r Hin). lia.
  - rewrite step_Settle_none by exact E.
    repeat split. exists []. split; [symmetry; apply app_nil_r | reflexivity].
Qed.

Lemma exec_invocationRef_call ops (st : State) :
  existsb is_call ops = true -> invocationRef st < invocationRef (exec ops st).
Proof.
  revert st. induction ops as [| op ops IH]; intros st H; [discriminate |].
  cbn in H. rewrite exec_cons.
  destruct (is_call op) eqn:E.
  - pose proof (exec_invocationRef_le ops (step op st)) as Hle.
    rewrite step_invocationRef, E in Hle. lia.
  - cbn in H. specialize (IH (step op st) H).
    rewrite step_invocationRef, E in IH. exact IH.
Qed.

(** ** Only the latest generation is observable *)

Lemma filter_none {A} (f : A -> bool) (l : list A) :
  forallb (fun x => negb (f x)) l = true -> filter f l = [].
Proof.
  induction l as [| a l IH]; cbn; [reflexivity |].
  intros H. apply andb_true_iff in H as [Ha Hl].
  apply negb_true_iff in Ha. rewrite Ha. apply IH, Hl.
Qed.

Lemma silent_commits (st st' : State) : silent st st' -> commits st' = commits st.
Proof.
  intros (_ & _ & _ & evs & Ht & Hevs). unfold commits.
  rewrite Ht, filter_app, (filter_none _ _ Hevs). apply app_nil_r.
Qed.

Lemma waiting_nil_take inv (st : State) :
  waiting inv st = [] -> take_reaction inv (reactions st) = None.
Proof.
  unfold waiting. intros H.
  destruct (take_reaction inv (reactions st)) as [[r rest] |] eqn:E;
    [| reflexivity].
  rewrite (take_reaction_filter_same _ _ E) in H. discriminate.
Qed.

(** Dropping the settlements of every generation but the current one changes
    neither the status nor the status writes and callback calls. *)
Lemma erase_older settles : forall a b : State,
  well_formed a ->
  invocationRef a = invocationRef b ->
  callbacksRef a = callbacksRef b ->
  status a = status b ->
  commits a = commits b ->
  waiting (invocationRef a) a = waiting (invocationRef a) b ->
  let latest := filter (fun s => fst s =? invocationRef a) settles in
  status (exec (settle_ops settles) a) = status (exec (settle_ops latest) b) /\
  commits (exec (settle_ops settles) a) = commits (exec (settle_ops latest) b).
Proof.
  induction settles as [| [j env] settles IH];
    intros a b Hwf Hn Hc Hs Ht Hw; cbn zeta.
  - split; assumption.
  - cbn [filter fst]. destruct (j =? invocationRef a) eqn:Ej.
    + apply Nat.eqb_eq in Ej. subst j.
      cbn [settle_ops map fst snd]. rewrite !exec_cons.
      destruct (waiting (invocationRef a) a) as [| r l] eqn:Ea.
      * symmetry in Hw.
        rewrite step_Settle_none by (apply waiting_nil_take, Ea).
        rewrite step_Settle_none by (apply waiting_nil_take, Hw).
        apply IH; try assumption. rewrite Ea, Hw. reflexivity.
      * symmetry in Hw.
        pose proof (well_formed_step (Settle (invocationRef a) env) Hwf) as Hwf'.
        apply waiting_take in Ea as (rest_a & Ha & Hla).
        apply waiting_take in Hw as (rest_b & Hb & Hlb).
        rewrite settle_closed_form with (r := r) (rest := rest_a) in Hwf' |- *
          by exact Ha.
        rewrite settle_closed_form with (r := r) (rest := rest_b)
          by exact Hb.
        specialize (IH _
          {| invocationRef := invocationRef b;
             callbacksRef := callbacksRef b;
             status := settle_status r env (invocationRef b) (status b);
             reactions := rest_b;
             trace := trace b ++
                      settle_events r env (invocationRef b) (callbacksRef b) |}
          Hwf').
        cbn [invocationRef callbacksRef status] in IH.
        apply IH.
        -- exact Hn.
        -- exact Hc.
        -- rewrite Hn, Hs. reflexivity.
        -- unfold commits in Ht |- *. cbn [trace].
           rewrite !filter_app, Ht, Hn, Hc. reflexivity.
        -- unfold waiting. cbn [reactions]. rewrite Hla, Hlb. reflexivity.
    + apply Nat.eqb_neq in Ej.
      cbn [settle_ops map fst snd]. rewrite exec_cons.
      pose proof (settle_other_silent env Hwf Ej) as Hsil.
      pose proof (silent_commits Hsil) as Hcm.
      destruct Hsil as (Hn' & Hc' & Hs' & _).
      pose proof (well_formed_step (Settle j env) Hwf) as Hwf'.
      specialize (IH (step (Settle j env) a) b Hwf').
      rewrite Hn' in IH. apply IH.
      * exact Hn.
      * rewrite Hc'. exact Hc.
      * rewrite Hs'. exact Hs.
      * rewrite Hcm. exact Ht.
      * rewrite step_waiting; [exact Hw | apply Nat.le_refl |].
        cbn. apply negb_true_iff, Nat.eqb_neq, Ej.
Qed.

(** C2.  In every reachable state, the settlement of any generation other
    than the current one writes no status and calls no callback.  In
    particular a [run] followed by any history that contains a later [run] or
    a [cancel] commits nothing when its promise settles, however it settles.
    Hence, whatever settlements arrive and in whatever order, the status and
    the callback calls are those of the latest generation's settlement
    alone. *)
Theorem superseded_settlement_discarded (props0 : Props) history :
  let st := exec history (useAsyncTask_init props0) in
  (forall inv env,
     inv <> invocationRef st -> silent st (step (Settle inv env) st)) /\
  (forall p args ops env,
     existsb is_call ops = true ->
     let st1 := step (Run p args) st in
     let st2 := exec ops st1 in
     silent st2 (step (Settle (invocationRef st1) env) st2)) /\
  (forall settles,
     let latest := filter (fun s => fst s =? invocationRef st) settles in
     status (exec (settle_ops settles) st) =
       status (exec (settle_ops latest) st) /\
     commits (exec (settle_ops settles) st) =
       commits (exec (settle_ops latest) st)).
Proof.
  intros st. refine (conj _ (conj _ _)).
  - intros inv env Hne.
    apply settle_other_silent; [apply well_formed_reachable | exact Hne].
  - intros p args ops env Hcall st1 st2.
    apply settle_superseded_silent, exec_invocationRef_call, Hcall.
  - intros settles.
    apply erase_older; try reflexivity. apply well_formed_reachable.
Qed.

(** ** Synchronous failures *)

(** [run] returns normally, whatever its task function does. *)
Lemma run_returns (f : TaskFunction) leave args (st : State) :
  fst (run f leave args st) = Normal tt.
Proof. rewrite run_eq. reflexivity. Qed.

Lemma alike_refl inv e (l : list Reaction) : Forall2 (alike inv e) l l.
Proof. induction l; constructor; [left; reflexivity | assumption]. Qed.

Lemma take_reaction_alike inv e j (la lb : list Reaction) :
  Forall2 (alike inv e) la lb ->
  (take_reaction j la = None /\ take_reaction j lb = None) \/
  (exists ra rb rest_a rest_b,
     take_reaction j la = Some (ra, rest_a) /\
     take_reaction j lb = Some (rb, rest_b) /\
     alike inv e ra rb /\
     Forall2 (alike inv e) rest_a rest_b).
Proof.
  induction 1 as [| ra rb la lb Hab Hl IH]; [left; split; reflexivity |].
  assert (Hid : r_invocation ra = r_invocation rb).
  { destruct Hab as [-> | (Ha & Hb & _)]; [reflexivity | congruence]. }
  cbn [take_reaction]. rewrite <- Hid.
  destruct (r_invocation ra =? j).
  - right. exists ra, rb, la, lb. repeat split; assumption.
  - destruct IH as [[-> ->] | (ra' & rb' & rest_a & rest_b & -> & -> & Hr & Hrest)].
    + left. split; reflexivity.
    + right. exists ra', rb', (ra :: rest_a), (rb :: rest_b).
      repeat split; [exact Hr | constructor; assumption].
Qed.

Lemma alike_settle inv e env (ra rb : Reaction) n s cbs :
  alike inv e ra rb ->
  (r_invocation ra = inv -> env = Rejected e) ->
  settle_status ra env n s = settle_status rb env n s /\
  (settle_events ra env n cbs : list Event) = settle_events rb env n cbs.
Proof.
  intros [-> | (Ha & Hb & Hl & Hpa & q & Hpb)] Henv; [split; reflexivity |].
  unfold settle_status, settle_events.
  rewrite Ha, Hb, Hpa, Hpb, (Henv Ha). split; reflexivity.
Qed.

Lemma similar_step inv e op (a b : State) :
  similar inv e a b -> rejects inv e op ->
  similar inv e (step op a) (step op b).
Proof.
  intros (Hn & Hc & Hs & Ht & Hr) Hop.
  assert (Hrun : forall p args (a b : State),
             similar inv e a b ->
             similar inv e (step (Run p args) a) (step (Run p args) b)).
  { intros p args a' b' (Hn' & Hc' & Hs' & Ht' & Hr').
    rewrite !step_Run, !run_eq. unfold similar. cbn [snd invocationRef
      callbacksRef status trace reactions].
    rewrite Hn', Hc', Ht'. repeat split.
    apply Forall2_app; [exact Hr' | apply alike_refl]. }
  assert (Hrender : forall p, similar inv e (step (Render p) a)
                                            (step (Render p) b)).
  { intros p. rewrite !step_Render. unfold similar.
    cbn [invocationRef callbacksRef status trace reactions].
    repeat split; assumption. }
  assert (Hcancel : similar inv e (snd (cancel a)) (snd (cancel b))).
  { rewrite !cancel_eq. unfold similar.
    cbn [snd invocationRef callbacksRef status trace reactions].
    rewrite Hn, Ht. repeat split; assumption. }
  destruct op as [p | p | p args | | | j env].
  - rewrite !step_Mount. destruct (toBoolean (runOnMount p));
      [apply Hrun |]; apply Hrender.
  - apply Hrender.
  - apply Hrun. repeat split; assumption.
  - exact Hcancel.
  - exact Hcancel.
  - cbn in Hop.
    destruct (take_reaction_alike j Hr)
      as [[Ha Hb] | (ra & rb & rest_a & rest_b & Ha & Hb & Hab & Hrest)].
    + rewrite !step_Settle_none by assumption. repeat split; assumption.
    + rewrite settle_closed_form with (r := ra) (rest := rest_a) by exact Ha.
      rewrite settle_closed_form with (r := rb) (rest := rest_b) by exact Hb.
      pose proof (take_reaction_invocation _ _ Ha) as Hj.
      assert (Henv : r_invocation ra = inv -> env = Rejected e)
        by (intros H; apply Hop; congruence).
      destruct (@alike_settle inv e env ra rb (invocationRef a) (status a)
                  (callbacksRef a) Hab Henv) as [Hst Hev].
      unfold similar. cbn [invocationRef callbacksRef status trace reactions].
      rewrite Hst, Hev, Hn, Hc, Hs, Ht. repeat split. exact Hrest.
Qed.

Lemma similar_exec inv e ops : forall a b : State,
  similar inv e a b -> Forall (rejects inv e) ops ->
  similar inv e (exec ops a) (exec ops b).
Proof.
  induction ops as [| op ops IH]; intros a b Hab Hops; [exact Hab |].
  inversion Hops; subst. rewrite !exec_cons.
  apply IH; [apply similar_step |]; assumption.
Qed.

Lemma not_settling_rejects inv e (ops : list Op) :
  forallb (not_settling inv) ops = true -> Forall (rejects inv e) ops.
Proof.
  induction ops as [| op ops IH]; cbn [forallb]; intros H; constructor.
  - apply andb_true_iff in H as [Hop _].
    destruct op as [p | p | p args | | | j env]; cbn; try exact I.
    intros ->. cbn in Hop. rewrite Nat.eqb_refl in Hop. discriminate.
  - apply andb_true_iff in H as [_ Hops]. apply IH, Hops.
Qed.

Lemma alike_rest_eq inv e (la lb : list Reaction) :
  Forall2 (alike inv e) la lb ->
  filter (fun x => r_invocation x =? inv) la = [] ->
  la = lb.
Proof.
  induction 1 as [| ra rb la lb Hab Hl IH]; intros Hf; [reflexivity |].
  cbn [filter] in Hf.
  destruct (r_invocation ra =? inv) eqn:E; [discriminate |].
  f_equal; [| apply IH, Hf].
  destruct Hab as [-> | (Ha & _)]; [reflexivity |].
  rewrite Ha, Nat.eqb_refl in E. discriminate.
Qed.

(** C5.  [run] is called in a reachable state with a task function that
    throws [e].  [run] does not throw: it returns [undefined].  When the
    promise the [catch] block made is processed, after any history that has
    not processed it yet and whatever the environment would deliver, the
    failure path runs: the error [e] is printed and, unless the token is
    canceled by then, the status becomes
    [{ isRunning: false, result: null, error: e }] and [onError(e)] and
    [onFinally()] are called.  The hook is then in the very state it would be
    in had the task function returned a promise that was rejected with [e]
    at that point. *)
Theorem sync_throw_as_rejection (props0 : Props) history
    (f_throw f_reject : TaskFunction) leave args e q ops env :
  let st0 := exec history (useAsyncTask_init props0) in
  let inv := S (invocationRef st0) in
  let a2 := exec ops (snd (run f_throw leave args st0)) in
  let b2 := exec ops (snd (run f_reject leave args st0)) in
  let a3 := step (Settle inv env) a2 in
  let b3 := step (Settle inv (Rejected e)) b2 in
  let superseded := isCanceled (make_thisArg inv) a2 in
  f_throw (make_thisArg inv) args = Throw e ->
  f_reject (make_thisArg inv) args = Normal (IsPromise q) ->
  forallb (not_settling inv) ops = true ->
  fst (run f_throw leave args st0) = Normal tt /\
  trace a3 =
    trace a2 ++
    EvConsoleError (name e) (message e) (stack e) ::
    (if superseded then []
     else
       EvSetStatus (status_failed e) ::
       opt_event (onError (callbacksRef a2)) (fun h => EvOnError h e) ++
       opt_event (onFinally (callbacksRef a2)) EvOnFinally) /\
  status a3 = (if superseded then status a2 else status_failed e) /\
  a3 = b3.
Proof.
  intros st0 inv a2 b2 a3 b3 superseded Hthrow Hreject Hq.
  pose proof (well_formed_reachable props0 history) as Hwf. fold st0 in Hwf.
  set (ra := {| r_promise := NewRejected e;
                r_invocation := inv;
                r_leaveRunning := leave |} : Reaction).
  set (rb := {| r_promise := Returned q;
                r_invocation := inv;
                r_leaveRunning := leave |} : Reaction).
  (* the continuation each side has waiting under [inv] *)
  assert (Hwa : waiting inv a2 = [ra]).
  { unfold a2. change (snd (run f_throw leave args st0))
      with (step (Run (mkProps f_throw None leave (callbacks props0)) args) st0).
    rewrite exec_waiting;
      [| rewrite step_invocationRef; apply Nat.le_refl | exact Hq].
    unfold inv. rewrite waiting_new by exact Hwf.
    cbn [func leaveRunning]. fold inv. rewrite Hthrow. reflexivity. }
  assert (Hwb : waiting inv b2 = [rb]).
  { unfold b2. change (snd (run f_reject leave args st0))
      with (step (Run (mkProps f_reject None leave (callbacks props0)) args) st0).
    rewrite exec_waiting;
      [| rewrite step_invocationRef; apply Nat.le_refl | exact Hq].
    unfold inv. rewrite waiting_new by exact Hwf.
    cbn [func leaveRunning]. fold inv. rewrite Hreject. reflexivity. }
  apply waiting_take in Hwa as (rest_a & Hta & Hfa).
  apply waiting_take in Hwb as (rest_b & Htb & _).
  (* the two sides agree on everything else *)
  assert (Hsim : similar inv e a2 b2).
  { apply similar_exec; [| apply not_settling_rejects, Hq].
    rewrite !run_eq. fold inv. rewrite Hthrow, Hreject.
    unfold similar. cbn [snd invocationRef callbacksRef status trace
      reactions guarded_promise].
    repeat split.
    apply Forall2_app; [apply alike_refl |].
    constructor; [| constructor].
    right. cbn. repeat split. exists q. reflexivity. }
  destruct Hsim as (Hn & Hc & Hs & Ht & Hr).
  assert (Hrest : rest_a = rest_b).
  { destruct (take_reaction_alike inv Hr)
      as [[Hnone _] | (ra' & rb' & rest_a' & rest_b' & Ha' & Hb' & _ & Hrest)].
    - rewrite Hta in Hnone. discriminate.
    - rewrite Hta in Ha'. rewrite Htb in Hb'.
      injection Ha' as _ <-. injection Hb' as _ <-.
      apply (alike_rest_eq Hrest Hfa). }
  assert (Ha3 : a3 =
            {| invocationRef := invocationRef a2;
               callbacksRef := callbacksRef a2;
               status := if superseded then status a2 else status_failed e;
               reactions := rest_a;
               trace := trace a2 ++
                 EvConsoleError (name e) (message e) (stack e) ::
                 (if superseded then []
                  else
                    EvSetStatus (status_failed e) ::
                    opt_event (onError (callbacksRef a2))
                              (fun h => EvOnError h e) ++
                    opt_event (onFinally (callbacksRef a2)) EvOnFinally) |}).
  { unfold a3. rewrite settle_closed_form with (r := ra) (rest := rest_a)
      by exact Hta.
    unfold settle_status, settle_events, superseded.
    rewrite isCanceled_make_thisArg. cbn [ra r_invocation r_promise outcome].
    reflexivity. }
  refine (conj (run_returns _ _ _ _) (conj _ (conj _ _))).
  - rewrite Ha3. reflexivity.
  - rewrite Ha3. reflexivity.
  - rewrite Ha3. unfold b3.
    rewrite settle_closed_form with (r := rb) (rest := rest_b) by exact Htb.
    unfold settle_status, settle_events, superseded.
    rewrite isCanceled_make_thisArg. cbn [rb r_invocation r_promise outcome].
    rewrite Hn, Hc, Hs, Ht, Hrest. reflexivity.
Qed.

(** C6.  A task function that returns a falsy value makes [run] behave as
    if it had thrown [new Error("Task function did not return a Promise!")]:
    [run] returns normally with the status running, and when the rejected
    promise is processed the error is printed and, unless the token is
    canceled by then, the status becomes
    [{ isRunning: false, result: null, error }] and [onError(error)] and
    [onFinally()] are called.  Nothing the environment does makes it
    succeed. *)
Theorem falsy_return_fails (props0 : Props) history (p : Props) args falsy ops env :
  let st0 := exec history (useAsyncTask_init props0) in
  let st1 := step (Run p args) st0 in
  let inv := invocationRef st1 in
  let st2 := exec ops st1 in
  let st3 := step (Settle inv env) st2 in
  let err := new_Error engine_stack "Task function did not return a Promise!" in
  let superseded := isCanceled (make_thisArg inv) st2 in
  func p (make_thisArg inv) args = Normal (IsFalsy falsy) ->
  forallb (not_settling inv) ops = true ->
  fst (run (func p) (leaveRunning p) args st0) = Normal tt /\
  st1 = snd (run (fun _ _ => Throw err) (leaveRunning p) args st0) /\
  status st1 = status_running /\
  trace st3 =
    trace st2 ++
    EvConsoleError "Error" "Task function did not return a Promise!"
                   engine_stack ::
    (if superseded then []
     else
       EvSetStatus (status_failed err) ::
       opt_event (onError (callbacksRef st2)) (fun h => EvOnError h err) ++
       opt_event (onFinally (callbacksRef st2)) EvOnFinally) /\
  status st3 = (if superseded then status st2 else status_failed err).
Proof.
  intros st0 st1 inv st2 st3 err superseded Hf Hq.
  assert (Hinv : inv = S (invocationRef st0))
    by (unfold inv, st1; rewrite step_invocationRef; reflexivity).
  unfold superseded. rewrite Hinv in Hf, Hq |- *.
  refine (conj (run_returns _ _ _ _) (conj _ (conj _ _))).
  - unfold st1. rewrite step_Run, !run_eq, Hf. reflexivity.
  - unfold st1. rewrite step_Run, run_eq. reflexivity.
  - destruct (settle_after_run p args ops env
                (well_formed_reachable props0 history) Hq) as [rest Hst].
    fold st0 st1 st2 in Hst.
    unfold st3. rewrite Hinv, Hst. cbn [status trace].
    unfold settle_status, settle_events.
    cbn [r_invocation r_promise r_leaveRunning].
    rewrite isCanceled_make_thisArg, Hf. cbn [guarded_promise outcome].
    fold err.
    destruct (S (invocationRef st0) <? invocationRef st2);
      split; reflexivity.
Qed.

(** * Further properties of the hook *)

Lemma exec_invariant (P : State -> Prop) :
  (forall op st, P st -> P (step op st)) ->
  forall ops st, P st -> P (exec ops st).
Proof.
  intros Hstep ops. induction ops as [| op ops IH]; intros st H; [exact H |].
  rewrite exec_cons. apply IH, Hstep, H.
Qed.

(** ** Mounting *)

(** The effects of the first render: without [runOnMount] they leave the
    fresh hook exactly as it was created, calling nothing; with [runOnMount]
    they amount to one [run()] without arguments, and the status the hook was
    created with is already the one this [run] writes. *)
Theorem mount_effects (p : Props) :
  let st0 := useAsyncTask_init p in
  step (Mount p) st0 =
    (if toBoolean (runOnMount p) then step (Run p []) st0 else st0) /\
  status (step (Mount p) st0) = status st0 /\
  trace (step (Mount p) st0) =
    (if toBoolean (runOnMount p)
     then EvFunc 1 [] :: EvSetStatus status_running ::
          opt_event (onStart (callbacks p)) EvOnStart
     else []).
Proof.
  cbn zeta. rewrite step_Mount, step_Render.
  unfold useAsyncTask_init.
  destruct (toBoolean (runOnMount p)).
  - rewrite !step_Run, !run_eq. repeat split; reflexivity.
  - repeat split; reflexivity.
Qed.

(** ** When a token reports cancellation *)

Lemma exec_superseded ops : forall (st : State) n,
  invocationRef st = n ->
  (n <? invocationRef (exec ops st)) = existsb is_call ops.
Proof.
  induction ops as [| op ops IH]; intros st n Hn; cbn [existsb].
  - cbn. subst n. apply Nat.ltb_irrefl.
  - rewrite exec_cons. destruct (is_call op) eqn:E; cbn [orb].
    + apply Nat.ltb_lt.
      pose proof (exec_invocationRef_le ops (step op st)) as Hle.
      rewrite step_invocationRef, E in Hle. lia.
    + apply IH. rewrite step_invocationRef, E. exact Hn.
Qed.


(** ** The shape of the status *)

Lemma status_consistent_step op (st : State) :
  status_consistent (status st) -> status_consistent (status (step op st)).
Proof.
  intros H.
  assert (Hrun : forall p args (s : State),
             status_consistent (status (step (Run p args) s))).
  { intros p args s. rewrite step_Run, run_eq. exact I. }
  destruct op as [p | p | p args | | | inv env].
  - rewrite step_Mount. destruct (toBoolean (runOnMount p));
      [apply Hrun | exact H].
  - exact H.
  - apply Hrun.
  - exact I.
  - exact I.
  - destruct (take_reaction inv (reactions st)) as [[r rest] |] eqn:E.
    + rewrite settle_closed_form with (r := r) (rest := rest) by exact E.
      cbn [status]. unfold settle_status.
      destruct (r_invocation r <? invocationRef st); [exact H |].
      destruct (outcome (r_promise r) env); [exact I |].
      split; reflexivity.
    + rewrite step_Settle_none by exact E. exact H.
Qed.

(** In every reachable state the status holds a result or an error, never
    both, and an error only together with [isRunning: false]. *)
Theorem status_always_consistent (props0 : Props) history :
  status_consistent (status (exec history (useAsyncTask_init props0))).
Proof.
  apply (exec_invariant (fun st => status_consistent (status st))).
  - apply status_consistent_step.
  - exact I.
Qed.

(** ** The numbers given to the task function *)

Lemma func_invocations_app (l l' : list Event) :
  func_invocations (l ++ l') = func_invocations l ++ func_invocations l'.
Proof. apply flat_map_app. Qed.

Lemma func_invocations_settle (r : Reaction) env n cbs :
  func_invocations (settle_events r env n cbs : list Event) = [].
Proof.
  unfold settle_events.
  destruct (outcome (r_promise r) env), (r_invocation r <? n);
    try reflexivity; cbn.
  - destruct (onComplete cbs), (onFinally cbs); reflexivity.
  - destruct (onError cbs), (onFinally cbs); reflexivity.
Qed.

Lemma step_func_invocations op (st : State) :
  func_invocations (trace (step op st)) =
  func_invocations (trace st) ++
  (if calls_func op then [S (invocationRef st)] else []).
Proof.
  assert (Hrun : forall p args (s : State),
             func_invocations (trace (step (Run p args) s)) =
             func_invocations (trace s) ++ [S (invocationRef s)]).
  { intros p args s. rewrite step_Run, run_eq. cbn [snd trace].
    rewrite func_invocations_app. cbn.
    destruct (onStart (callbacksRef s)); reflexivity. }
  destruct op as [p | p | p args | | | inv env]; cbn [calls_func].
  - rewrite step_Mount. destruct (toBoolean (runOnMount p)).
    + rewrite Hrun. reflexivity.
    + rewrite step_Render. cbn [trace]. symmetry. apply app_nil_r.
  - rewrite step_Render. cbn [trace]. symmetry. apply app_nil_r.
  - apply Hrun.
  - rewrite step_Cancel, cancel_eq. cbn [snd trace].
    rewrite func_invocations_app. reflexivity.
  - rewrite step_Unmount, cancel_eq. cbn [snd trace].
    rewrite func_invocations_app. reflexivity.
  - destruct (take_reaction inv (reactions st)) as [[r rest] |] eqn:E.
    + rewrite settle_closed_form with (r := r) (rest := rest) by exact E.
      cbn [trace]. rewrite func_invocations_app, func_invocations_settle.
      reflexivity.
    + rewrite step_Settle_none by exact E. symmetry. apply app_nil_r.
Qed.

Lemma sorted_lt_snoc (l : list nat) x :
  StronglySorted lt l -> Forall (fun i => i < x) l ->
  StronglySorted lt (l ++ [x]).
Proof.
  induction 1 as [| a l Hs IH Ha]; intros Hx; cbn.
  - constructor; constructor.
  - inversion Hx; subst. constructor; [apply IH; assumption |].
    apply Forall_app. split; [exact Ha | constructor; [assumption | constructor]].
Qed.

Lemma func_invocations_step op (st : State) :
  StronglySorted lt (func_invocations (trace st)) /\
  Forall (fun i => 1 <= i <= invocationRef st) (func_invocations (trace st)) ->
  StronglySorted lt (func_invocations (trace (step op st))) /\
  Forall (fun i => 1 <= i <= invocationRef (step op st))
         (func_invocations (trace (step op st))).
Proof.
  intros [Hs Hb]. rewrite step_func_invocations.
  pose proof (step_invocationRef_le op st) as Hle.
  assert (Hb' : Forall (fun i => 1 <= i <= invocationRef (step op st))
                       (func_invocations (trace st))).
  { eapply Forall_impl; [| exact Hb]. cbn. intros; lia. }
  destruct (calls_func op) eqn:E.
  - assert (Hn : invocationRef (step op st) = S (invocationRef st)).
    { rewrite step_invocationRef.
      destruct op as [p | p | p args | | | inv env]; cbn in E |- *;
        try discriminate; [rewrite E |]; reflexivity. }
    split.
    + apply sorted_lt_snoc; [exact Hs |].
      eapply Forall_impl; [| exact Hb]. cbn. intros; lia.
    + apply Forall_app. split; [exact Hb' |].
      constructor; [rewrite Hn; lia | constructor].
  - rewrite app_nil_r. split; assumption.
Qed.

(** Every call of the task function gets a [this.invocation] larger than all
    earlier ones: in any trace the numbers are strictly increasing, start at 1
    or more, never exceed the counter, and so no number is used twice. *)
Theorem invocation_numbers_unique (props0 : Props) history :
  let st := exec history (useAsyncTask_init props0) in
  StronglySorted lt (func_invocations (trace st)) /\
  NoDup (func_invocations (trace st)) /\
  Forall (fun i => 1 <= i <= invocationRef st) (func_invocations (trace st)).
Proof.
  cbn zeta.
  assert (H : StronglySorted lt
                (func_invocations
                   (trace (exec history (useAsyncTask_init props0)))) /\
              Forall (fun i => 1 <= i <=
                        invocationRef (exec history (useAsyncTask_init props0)))
                (func_invocations
                   (trace (exec history (useAsyncTask_init props0))))).
  { apply (exec_invariant
             (fun st => StronglySorted lt (func_invocations (trace st)) /\
                        Forall (fun i => 1 <= i <= invocationRef st)
                               (func_invocations (trace st)))).
    - apply func_invocations_step.
    - split; constructor. }
  destruct H as [Hs Hb].
  refine (conj Hs (conj _ Hb)). apply sorted_lt_NoDup, Hs.
Qed.

(** ** Reachable states are coherent *)

Lemma waiting_above inv (st : State) :
  well_formed st -> invocationRef st < inv -> waiting inv st = [].
Proof.
  unfold well_formed, waiting. intros Hwf Hlt.
  induction Hwf as [| r l Hr Hl IH]; [reflexivity |].
  cbn [filter]. replace (r_invocation r =? inv) with false
    by (symmetry; apply Nat.eqb_neq; lia).
  exact IH.
Qed.

Lemma coherent_init (props : Props) : coherent (useAsyncTask_init props).
Proof.
  refine (conj (well_formed_init props) (conj _ _)).
  - intros inv. cbn. lia.
  - intros H. exfalso. apply H. reflexivity.
Qed.

Lemma coherent_run p args (st : State) :
  coherent st -> coherent (step (Run p args) st).
Proof.
  intros (Hwf & Hone & _).
  refine (conj (well_formed_step (Run p args) Hwf) (conj _ _)).
  - intros inv. destruct (Nat.eq_dec inv (S (invocationRef st))) as [-> | Hne].
    + rewrite waiting_new by exact Hwf. cbn. lia.
    + destruct (Nat.le_gt_cases inv (invocationRef st)) as [Hle | Hgt].
      * rewrite waiting_run by exact Hle. apply Hone.
      * unfold waiting. rewrite step_Run, run_eq. cbn [snd reactions].
        rewrite filter_app. cbn [filter r_invocation].
        replace (S (invocationRef st) =? inv) with false
          by (symmetry; apply Nat.eqb_neq; lia).
        rewrite app_nil_r. apply Hone.
  - intros _. rewrite step_Run, run_eq. reflexivity.
Qed.

Lemma coherent_cancel (st : State) : coherent st -> coherent (snd (cancel st)).
Proof.
  intros (Hwf & Hone & _).
  pose proof (well_formed_step Cancel Hwf) as Hwf'.
  rewrite step_Cancel in Hwf'.
  refine (conj Hwf' (conj _ _)).
  - intros inv. rewrite cancel_eq. apply Hone.
  - intros H. exfalso. apply H. rewrite cancel_eq.
    cbn [snd invocationRef].
    apply (waiting_above (inv := S (invocationRef st)) Hwf). lia.
Qed.

Lemma coherent_settle inv env (st : State) :
  coherent st -> coherent (step (Settle inv env) st).
Proof.
  intros (Hwf & Hone & Hrun).
  destruct (take_reaction inv (reactions st)) as [[r rest] |] eqn:E.
  - pose proof (well_formed_step (Settle inv env) Hwf) as Hwf'.
    rewrite settle_closed_form with (r := r) (rest := rest) in Hwf' |- *
      by exact E.
    assert (Hrest : filter (fun x => r_invocation x =? inv) rest = []).
    { specialize (Hone inv). unfold waiting in Hone.
      rewrite (take_reaction_filter_same _ _ E) in Hone. cbn in Hone.
      destruct (filter _ rest); [reflexivity | cbn in Hone; lia]. }
    refine (conj Hwf' (conj _ _)).
    + intros j. unfold waiting. cbn [reactions].
      destruct (Nat.eq_dec inv j) as [<- | Hne].
      * rewrite Hrest. cbn. lia.
      * rewrite take_reaction_filter_other
          with (j := inv) (l := reactions st) (r := r) by assumption.
        apply Hone.
    + unfold waiting. cbn [reactions invocationRef status]. intros Hw.
      destruct (Nat.eq_dec inv (invocationRef st)) as [Heq | Hne].
      * exfalso. apply Hw. rewrite <- Heq. exact Hrest.
      * rewrite take_reaction_filter_other
          with (j := inv) (l := reactions st) (r := r) in Hw by assumption.
        pose proof (take_reaction_invocation _ _ E) as Hr.
        pose proof (take_reaction_In _ _ E) as Hin.
        unfold well_formed in Hwf. rewrite Forall_forall in Hwf.
        specialize (Hwf r Hin).
        unfold settle_status.
        replace (r_invocation r <? invocationRef st) with true
          by (symmetry; apply Nat.ltb_lt; lia).
        apply Hrun, Hw.
  - rewrite step_Settle_none by exact E. repeat split; assumption.
Qed.

Lemma coherent_step op (st : State) : coherent st -> coherent (step op st).
Proof.
  intros H.
  assert (Hrender : forall p, coherent (step (Render p) st)).
  { intros p. rewrite step_Render. exact H. }
  destruct op as [p | p | p args | | | inv env].
  - rewrite step_Mount. destruct (toBoolean (runOnMount p));
      [apply coherent_run |]; apply Hrender.
  - apply Hrender.
  - apply coherent_run, H.
  - apply coherent_cancel, H.
  - apply coherent_cancel, H.
  - apply coherent_settle, H.
Qed.

Lemma coherent_reachable (props : Props) history :
  coherent (exec history (useAsyncTask_init props)).
Proof.
  apply (exec_invariant coherent);
    [apply coherent_step | apply coherent_init].
Qed.

Lemma exec_no_call ops (st : State) :
  existsb is_call ops = false -> invocationRef (exec ops st) = invocationRef st.
Proof.
  intros H. pose proof (exec_superseded ops st eq_refl) as Hs.
  rewrite H in Hs. apply Nat.ltb_ge in Hs.
  pose proof (exec_invocationRef_le ops st). lia.
Qed.

(** From a [run] until its own promise settles or the next [run], [cancel]
    or unmount, the status is
    [{ isRunning: true, result: null, error: null }], whichever older
    promises settle (fulfilled or rejected) and whichever renders happen in
    the meantime. *)
Theorem running_until_settled (props0 : Props) history p args ops :
  let st0 := exec history (useAsyncTask_init props0) in
  let st1 := step (Run p args) st0 in
  let st2 := exec ops st1 in
  forallb (not_settling (invocationRef st1)) ops = true ->
  existsb is_call ops = false ->
  status st2 = status_running /\ invocationRef st2 = invocationRef st1.
Proof.
  intros st0 st1 st2 Hq Hcall.
  assert (Hn : invocationRef st2 = invocationRef st1)
    by (apply exec_no_call, Hcall).
  split; [| exact Hn].
  assert (Hco : coherent st2).
  { unfold st2, st1, st0.
    rewrite <- exec_cons, <- exec_app. apply coherent_reachable. }
  destruct Hco as (_ & _ & Hrun). apply Hrun. rewrite Hn.
  unfold st2. rewrite exec_waiting; [| apply Nat.le_refl | exact Hq].
  assert (Hinv : invocationRef st1 = S (invocationRef st0))
    by (unfold st1; rewrite step_invocationRef; reflexivity).
  rewrite Hinv. unfold st1.
  rewrite waiting_new by apply well_formed_reachable. discriminate.
Qed.

(** ** After [cancel] or unmount *)

Lemma settle_latest_noop settles (st : State) :
  waiting (invocationRef st) st = [] ->
  exec (settle_ops (filter (fun s => fst s =? invocationRef st) settles)) st
  = st.
Proof.
  intros Hw. induction settles as [| [j env] settles IH]; [reflexivity |].
  cbn [filter fst]. destruct (j =? invocationRef st) eqn:Ej; [| exact IH].
  apply Nat.eqb_eq in Ej. subst j.
  cbn [settle_ops map fst snd]. rewrite exec_cons.
  rewrite step_Settle_none by (apply waiting_nil_take, Hw). exact IH.
Qed.

(** Once [cancel] has run, by a call or by the unmount cleanup, no promise
    still pending can bring anything back: whatever settlements arrive, the
    status stays [{ isRunning: false, result: null, error: null }] and no
    status write or callback call is added. *)
Theorem cancel_is_final (props0 : Props) history settles :
  let st := exec history (useAsyncTask_init props0) in
  let canceled := step Cancel st in
  step Unmount st = canceled /\
  status (exec (settle_ops settles) canceled) = status_idle /\
  commits (exec (settle_ops settles) canceled) =
    commits st ++ [EvSetStatus status_idle].
Proof.
  intros st canceled. split; [reflexivity |].
  assert (Hwf : well_formed canceled)
    by (apply well_formed_step, well_formed_reachable).
  assert (Hw : waiting (invocationRef canceled) canceled = []).
  { unfold canceled. rewrite step_Cancel, cancel_eq.
    cbn [snd invocationRef].
    apply (waiting_above (inv := S (invocationRef st))
             (well_formed_reachable props0 history)).
    apply Nat.lt_succ_diag_r. }
  destruct (@erase_older settles canceled canceled Hwf
              eq_refl eq_refl eq_refl eq_refl eq_refl) as [Hs Hc].
  rewrite settle_latest_noop in Hs, Hc by exact Hw.
  rewrite Hs, Hc. unfold canceled. rewrite step_Cancel, cancel_eq.
  unfold commits. cbn [snd status trace]. rewrite filter_app.
  split; reflexivity.
Qed.

End Facts.

(** * The sample hook at work *)

Module Examples.

Import Sample.
Local Open Scope string_scope.

(** ** The scenarios of the specification *)

(** [runOnMount: true] and a task resolving to ["42"]. *)
Example scenario_runOnMount :
  let st := exec stk [Mount mounting_props; Settle 1 (Fulfilled "42")]
                 (useAsyncTask_init mounting_props) in
  status st = {| isRunning := false; result := Some "42"; error := None |}.
Proof. reflexivity. Qed.

(** [run(); run()], the first resolves to ["A"], the second to ["B"]. *)
Example scenario_run_twice :
  let st := exec stk [Run sample_props []; Run sample_props [];
                      Settle 1 (Fulfilled "A"); Settle 2 (Fulfilled "B")]
                 (useAsyncTask_init sample_props) in
  status st = {| isRunning := false; result := Some "B"; error := None |} /\
  filter (fun ev => match ev with EvOnComplete _ _ => true | _ => false end)
         (trace st) = [EvOnComplete "onComplete" "B"].
Proof. split; reflexivity. Qed.

(** [run(); cancel()], then the task resolves. *)
Example scenario_cancel :
  let st1 := exec stk [Run sample_props []; Cancel]
                  (useAsyncTask_init sample_props) in
  let st2 := step stk (Settle 1 (Fulfilled "A")) st1 in
  status st2 = status_idle /\ trace st2 = trace st1.
Proof. split; reflexivity. Qed.

(** ** C1 as worded fails *)

(** C1, as worded, at [run()] on the fresh hook of [sample_props]: the task
    function is called first, before the status write and [onStart]. *)
Lemma run_order_counterexample :
  let tr := trace (step stk (Run sample_props [])
                        (useAsyncTask_init sample_props)) in
  tr = [EvFunc 1 []; EvSetStatus status_running; EvOnStart "onStart"] /\
  ~ status_onStart_func_order tr.
Proof.
  split; [reflexivity |].
  intros (i & j & k & Hi & Hj & Hk & Hij & Hjk).
  vm_compute in Hi, Hj, Hk.
  injection Hi as <-. injection Hj as <-. injection Hk as <-.
  lia.
Qed.

(** ** The theorems at work on the sample hook *)

(** Two overlapping runs: the first one's settlement is discarded, also
    when it is looked at as a [run] followed by a later [run]. *)
Lemma superseded_settlement_discarded_witness :
  let st0 := useAsyncTask_init sample_props in
  let st := exec stk [Run sample_props []; Run sample_props []] st0 in
  silent st (step stk (Settle 1 (Fulfilled "A")) st) /\
  silent st (step stk (Settle 1 (Rejected boom)) st).
Proof.
  split.
  - apply (proj1 (@superseded_settlement_discarded string nat string nat stk sample_props
                    [Run sample_props []; Run sample_props []])).
    vm_compute. discriminate.
  - apply (proj1 (proj2 (@superseded_settlement_discarded string nat string nat stk sample_props []))
             sample_props [] [Run sample_props []] (Rejected boom)).
    reflexivity.
Defined.

(** A rejection that is still current. *)
Lemma failure_path_witness :
  let st := exec stk [Run sample_props []; Settle 1 (Rejected boom)]
                 (useAsyncTask_init sample_props) in
  trace st =
    [EvFunc 1 []; EvSetStatus status_running; EvOnStart "onStart";
     EvConsoleError "TypeError" "boom" "TypeError: boom";
     EvSetStatus (status_failed boom);
     EvOnError "onError" boom; EvOnFinally "onFinally"] /\
  status st = status_failed boom.
Proof.
  pose proof (@failure_path string nat string nat stk sample_props [] sample_props [] 1 [] boom
                eq_refl eq_refl) as (Ht & Hs & _).
  split; [exact Ht | exact Hs].
Defined.

(** [cancel] on the fresh hook. *)
Lemma cancel_resets_witness :
  let st := useAsyncTask_init sample_props in
  isCanceled (make_thisArg 0) (step stk Cancel st) = true /\
  status (step stk Cancel st) = status st.
Proof.
  pose proof (@cancel_resets string nat string nat stk (useAsyncTask_init sample_props))
    as (_ & Hsup & _ & _ & _ & _ & _ & Hidle).
  split; [apply Hsup; cbn; lia | apply Hidle; reflexivity].
Defined.

(** A throwing task: the environment's say is ignored, and the outcome is
    that of a task whose promise is rejected. *)
Lemma sync_throw_as_rejection_witness :
  let st := useAsyncTask_init sample_props in
  let a3 := exec stk [Render later_props; Settle 1 (Fulfilled "ignored")]
                 (snd (run stk thrower None [] st)) in
  let b3 := exec stk [Render later_props; Settle 1 (Rejected boom)]
                 (snd (run stk fetch None [] st)) in
  fst (run stk thrower None [] st) = Normal tt /\
  trace a3 =
    [EvFunc 1 []; EvSetStatus status_running; EvOnStart "onStart";
     EvConsoleError "TypeError" "boom" "TypeError: boom";
     EvSetStatus (status_failed boom); EvOnFinally "onFinally'"] /\
  status a3 = status_failed boom /\
  a3 = b3.
Proof.
  apply (@sync_throw_as_rejection string nat string nat stk sample_props []
           thrower fetch None [] boom 1 [Render later_props]
           (Fulfilled "ignored")).
  - reflexivity.
  - reflexivity.
  - reflexivity.
Defined.

(** A task that returns [undefined]. *)
Lemma falsy_return_fails_witness :
  let st := exec stk [Run idler_props []; Settle 1 (Fulfilled "ignored")]
                 (useAsyncTask_init idler_props) in
  status st = status_failed missing_promise /\
  trace st =
    [EvFunc 1 []; EvSetStatus status_running; EvOnStart "onStart";
     EvConsoleError "Error" "Task function did not return a Promise!" stk;
     EvSetStatus (status_failed missing_promise);
     EvOnError "onError" missing_promise; EvOnFinally "onFinally"].
Proof.
  pose proof (@falsy_return_fails string nat string nat stk idler_props [] idler_props []
                FalsyUndefined [] (Fulfilled "ignored") eq_refl eq_refl)
    as (_ & _ & _ & Ht & Hs).
  split; [exact Hs | exact Ht].
Defined.

(** A success with [leaveRunning: true]. *)
Lemma success_commits_witness :
  let st := exec stk [Run leaving_props []; Settle 1 (Fulfilled "A")]
                 (useAsyncTask_init sample_props) in
  status st = {| isRunning := true; result := Some "A"; error := None |} /\
  trace st =
    [EvFunc 1 []; EvSetStatus status_running; EvOnStart "onStart";
     EvSetStatus {| isRunning := true; result := Some "A"; error := None |};
     EvOnComplete "onComplete" "A"; EvOnFinally "onFinally"].
Proof.
  pose proof (@success_commits string nat string nat stk sample_props [] leaving_props [] 1 [] "A"
                eq_refl eq_refl eq_refl) as (Hs & Ht & _).
  split; [exact Hs | exact Ht].
Defined.

(** A render between [run] and the settlement. *)
Lemma latest_callbacks_witness :
  let st := exec stk [Run sample_props []; Render later_props;
                      Settle 1 (Fulfilled "A")]
                 (useAsyncTask_init sample_props) in
  trace st =
    [EvFunc 1 []; EvSetStatus status_running; EvOnStart "onStart";
     EvSetStatus {| isRunning := false; result := Some "A"; error := None |};
     EvOnComplete "onComplete'" "A"; EvOnFinally "onFinally'"].
Proof.
  exact (proj1 (@latest_callbacks string nat string nat stk sample_props [] sample_props later_props
                  [] 1 [] [] (Fulfilled "A")
                  eq_refl eq_refl eq_refl eq_refl)).
Defined.

(** A token canceled by a second [run] stays canceled. *)
Lemma generation_counter_monotone_witness :
  let st := exec stk [Run sample_props []; Run sample_props []]
                 (useAsyncTask_init sample_props) in
  isCanceled (make_thisArg 1)
             (exec stk [Cancel; Run sample_props []] st) = true.
Proof.
  pose proof (@generation_counter_monotone string nat string nat stk)
    as (_ & _ & _ & _ & _ & Hmono).
  apply Hmono. reflexivity.
Defined.

(** A second [run] stays running while the first one's promise is rejected
    and a render happens. *)
Lemma running_until_settled_witness :
  let st := exec stk [Run sample_props []; Run sample_props [];
                      Settle 1 (Rejected boom); Render later_props]
                 (useAsyncTask_init sample_props) in
  status st = status_running /\ invocationRef st = 2.
Proof.
  apply (@running_until_settled string nat string nat stk sample_props
           [Run sample_props []] sample_props []
           [Settle 1 (Rejected boom); Render later_props]).
  - reflexivity.
  - reflexivity.
Defined.

End Examples.
